(** * WASM-ImageMagick: the execution orchestrator and the image registry

    A shallow embedding of [src/execute.ts] and [src/imageHome.ts].

    - JavaScript values that reach the polymorphic entry points are an
      inductive type [Value]; truthiness and property access are written out.
    - Name-keyed JavaScript objects ([allInputFiles], [allOutputFiles], the
      registry's [images]) are association lists kept in the order in which
      [Object.keys] enumerates them; a write under [__proto__] sets the
      prototype and makes no own property.
    - The asynchronous [addBuiltInImages] is a call that stands at one of
      its [await]s and goes on when the state of the instance lets it.
    - [async] functions are computations over the history of invocations of
      the external primitive [call]; a computation returns, throws, or leaves
      the declared TypeScript types.
    - Collaborators that live outside these two files ([call], [asCommand],
      [asInputFile], [isInputFile], [getBuiltInImages], the order in which
      concurrent coercions settle) are the fields of the class [Externals]. *)

From Stdlib Require Import List String Ascii ZArith NArith Bool Lia.
From Stdlib Require Import Permutation DecimalString.
From Stdlib Require Init.Byte.
Import ListNotations.

Local Open Scope string_scope.
Local Open Scope list_scope.

Set Implicit Arguments.
Local Set Warnings "-register-all".

(* ================================================================= *)
(** ** Files *)

(** [MagickFile] is the interface [{ name: string }]; the two kinds of file
    extend it with their payload. *)
Class Named (A : Type) := name : A -> string.

Record MagickInputFile := mkInputFile {
  in_name : string;
  content : list Byte.byte
}.

Record MagickOutputFile := mkOutputFile {
  out_name : string;
  blob : list Byte.byte
}.

Inductive MagickFile :=
| InputFile (f : MagickInputFile)
| OutputFile (f : MagickOutputFile).

#[global] Instance MagickInputFile_Named : Named MagickInputFile := in_name.
#[global] Instance MagickOutputFile_Named : Named MagickOutputFile := out_name.
#[global] Instance MagickFile_Named : Named MagickFile :=
  fun f => match f with InputFile i => name i | OutputFile o => name o end.

(* ================================================================= *)
(** ** JavaScript values *)

(** Numbers are the integers (exit codes and numeric command tokens); [NaN]
    and fractions are left out.  A file object is a value of its own. *)
Inductive Value :=
| VUndefined
| VNull
| VBool (b : bool)
| VNumber (n : Z)
| VString (s : string)
| VFile (f : MagickInputFile)
| VArray (xs : list Value)
| VObject (props : list (string * Value)).

(** What a [throw] carries.  The message of an error raised by the engine
    is the engine's. *)
Inductive Thrown :=
| Error (message : string)          (* new Error(message) *)
| TypeError (message : string)      (* raised by the engine *)
| Rejection (rendering : string).   (* any other thrown value, by its string conversion *)

(** [!!v] *)
Definition truthy (v : Value) : bool :=
  match v with
  | VUndefined | VNull => false
  | VBool b => b
  | VNumber n => negb (n =? 0)%Z
  | VString s => negb (s =? "")
  | VFile _ | VArray _ | VObject _ => true
  end.

(** [a || b] *)
Definition or_else (a b : Value) : Value := if truthy a then a else b.

Fixpoint own_property (k : string) (props : list (string * Value)) : Value :=
  match props with
  | [] => VUndefined
  | (k', v) :: rest => if k =? k' then v else own_property k rest
  end.

(** [v.k], for the keys [commands] and [inputFiles], which no prototype
    defines: reading them off [undefined] or [null] raises, a primitive, an
    array or a file has none, an object answers with its own property. *)
Definition get_property (v : Value) (k : string) : Thrown + Value :=
  match v with
  | VUndefined => inl (TypeError ("Cannot read property '" ++ k ++ "' of undefined")%string)
  | VNull => inl (TypeError ("Cannot read property '" ++ k ++ "' of null")%string)
  | VObject props => inr (own_property k props)
  | _ => inr VUndefined
  end.

(** [Array.isArray(v)] *)
Definition isArray (v : Value) : bool :=
  match v with VArray _ => true | _ => false end.

(** [v[0]], for an array. *)
Definition first_element (v : Value) : Value :=
  match v with
  | VArray (x :: _) => x
  | _ => VUndefined
  end.

(** [n + ''] for an integer [n]. *)
Definition number_to_string (n : Z) : string :=
  NilZero.string_of_int (Z.to_int n).

(** [e + ''] for a thrown value [e]. *)
Definition thrown_to_string (e : Thrown) : string :=
  match e with
  | Error m => if m =? "" then "Error" else ("Error: " ++ m)%string
  | TypeError m => if m =? "" then "TypeError" else ("TypeError: " ++ m)%string
  | Rejection s => s
  end.

(** [lines.join(sep)] *)
Definition join (sep : string) (lines : list string) : string :=
  String.concat sep lines.

Definition newline : string := String (ascii_of_nat 10) "".

(* ================================================================= *)
(** ** Name-keyed objects *)

(** An object used as a map, [{ [name: string]: V }]: its own properties in
    the order of [Object.keys], which lists array-index keys first, by
    ascending value, and then every other key in the order of creation.
    Writing to an existing key keeps the key where it is.

    The values are objects (files, promises), and the objects are created
    by [{}], so a write [o['__proto__'] = v] creates no own property: it
    sets the prototype of [o], and a later read [o['__proto__']] answers
    [v].  The list keeps the prototype as the entry under [proto_key];
    that entry is a slot of the object and not an own property, so [keys]
    and [values] pass over it and [delete] leaves it alone.  Properties
    that [o] inherits (from [Object.prototype], or from a prototype set
    this way) are not modelled: a read of a name that was never written
    answers [None]. *)
Definition JsObject (V : Type) := list (string * V).

Definition proto_key : string := "__proto__".

(** The names that are not [__proto__]. *)
Definition ordinary (k : string) : bool := negb (k =? proto_key).

(** The canonical numeric strings below [2^32 - 1]. *)
Definition array_index (k : string) : option N :=
  match NilZero.uint_of_string k with
  | Some d =>
      let n := N.of_uint d in
      if (NilZero.string_of_uint (N.to_uint n) =? k) && (n <? 4294967295)%N
      then Some n else None
  | None => None
  end.

Section JsObjects.
Variable V : Type.

(** [o[k]] *)
Fixpoint lookup (k : string) (o : JsObject V) : option V :=
  match o with
  | [] => None
  | (k', v) :: rest => if k =? k' then Some v else lookup k rest
  end.

Fixpoint overwrite (k : string) (v : V) (o : JsObject V) : JsObject V :=
  match o with
  | [] => []
  | (k', v') :: rest =>
      if k =? k' then (k, v) :: rest else (k', v') :: overwrite k v rest
  end.

Fixpoint insert_index (i : N) (k : string) (v : V) (o : JsObject V) : JsObject V :=
  match o with
  | [] => [(k, v)]
  | (k', v') :: rest =>
      match array_index k' with
      | Some j => if (j <? i)%N then (k', v') :: insert_index i k v rest
                  else (k, v) :: o
      | None => (k, v) :: o
      end
  end.

(** [o[k] = v], for a value [v] that is an object.  Under [proto_key] the
    entry written is the prototype slot. *)
Definition assign (k : string) (v : V) (o : JsObject V) : JsObject V :=
  match lookup k o with
  | Some _ => overwrite k v o
  | None =>
      match array_index k with
      | Some i => insert_index i k v o
      | None => o ++ [(k, v)]
      end
  end.

(** The own properties of [o]: every slot but the prototype. *)
Definition own (o : JsObject V) : JsObject V :=
  filter (fun p => ordinary (fst p)) o.

(** [delete o[k]]: [__proto__] is no own property, so there is nothing to
    delete under it. *)
Definition delete (k : string) (o : JsObject V) : JsObject V :=
  if ordinary k then filter (fun p => negb (fst p =? k)) o else o.

(** [Object.keys(o)] *)
Definition keys (o : JsObject V) : list string := map fst (own o).

(** Modelled from the spec: [values] of [util/misc], which is not among the
    sources; the values of the object's own properties, in the order of
    its keys. *)
Definition values (o : JsObject V) : list V := map snd (own o).

(** The names of all slots of [o], the prototype slot included. *)
Definition slots (o : JsObject V) : list string := map fst o.
End JsObjects.

Arguments lookup {V}.
Arguments overwrite {V}.
Arguments insert_index {V}.
Arguments assign {V}.
Arguments delete {V}.
Arguments keys {V}.
Arguments values {V}.
Arguments own {V}.
Arguments slots {V}.

(* ================================================================= *)
(** ** Commands and results *)

(** [Command = (string | number)[]] *)
Inductive Token :=
| TString (s : string)
| TNumber (n : Z).

Definition Command := list Token.

(** [c + ''] *)
Definition token_to_string (c : Token) : string :=
  match c with
  | TString s => s
  | TNumber n => number_to_string n
  end.

Definition token_value (c : Token) : Value :=
  match c with
  | TString s => VString s
  | TNumber n => VNumber n
  end.

(** A [Command], and an array of files, as the JavaScript arrays they are. *)
Definition command_value (c : Command) : Value := VArray (map token_value c).
Definition files_value (fs : list MagickInputFile) : Value := VArray (map VFile fs).

(** One invocation of the external primitive: the arguments it was given. *)
Record Invocation := mkInvocation {
  inv_inputFiles : list MagickInputFile;
  inv_command : list string
}.

Definition Trace := list Invocation.

Record CallResult := mkCallResult {
  cr_stdout : list string;
  cr_stderr : list string;
  cr_outputFiles : list MagickOutputFile;
  cr_exitCode : Z;
  cr_command : list string;
  cr_inputFiles : list MagickInputFile
}.

Inductive CallOutcome :=
| Completed (result : CallResult)
| Faulted (error : Thrown).

(** [errors] holds one slot per attempt: [undefined] or a message. *)
Record ExecuteResultOne := mkExecuteResultOne {
  stdout : list string;
  stderr : list string;
  outputFiles : list MagickOutputFile;
  exitCode : Z;
  command : list string;
  inputFiles : list MagickInputFile;
  errors : list (option string)
}.

(** [ExecuteResult extends ExecuteResultOne]: the inherited fields are those
    of [aggregate]. *)
Record ExecuteResult := mkExecuteResult {
  aggregate : ExecuteResultOne;
  results : list ExecuteResultOne;
  commands : list Command
}.

(** [{ ...result, errors }] *)
Definition with_errors (result : CallResult) (errs : list (option string)) : ExecuteResultOne :=
  {| stdout := cr_stdout result;
     stderr := cr_stderr result;
     outputFiles := cr_outputFiles result;
     exitCode := cr_exitCode result;
     command := cr_command result;
     inputFiles := cr_inputFiles result;
     errors := errs |}.

(* ================================================================= *)
(** ** Collaborators outside the two files *)

Class Externals := {
  (** [call(inputFiles, command)] of [magickApi]: what it answers may depend
      on every invocation made before. *)
  call : Trace -> list MagickInputFile -> list string -> CallOutcome;
  (** [asCommand] of the command normalizer. *)
  asCommand : Value -> list Command;
  (** [asInputFile] of [util], the coercion to an input file. *)
  asInputFile : MagickFile -> MagickInputFile;
  (** [isInputFile] of [util], as a total answer.  The implementation of
      the package reads a property of its argument and raises on
      [undefined] and on [null]; [asExecuteConfig] consults it on the first
      element of an array, so an array that starts with [undefined] or
      [null], the empty array included, is outside what this field
      describes. *)
  isInputFile : Value -> bool;
  (** The order in which the coercions of the output files of step [k],
      started together by [pMap], settle. *)
  settleOrder : nat -> list MagickOutputFile -> list MagickOutputFile;
  (** What [getBuiltInImages()] resolves to. *)
  getBuiltInImages : list MagickFile
}.

(* ================================================================= *)
(** ** Asynchronous computations *)

Inductive Outcome (A : Type) :=
| Returns (a : A)
| Throws (e : Thrown)
| OutsideTypes.   (* a value that the TypeScript signature excludes was met *)

Arguments Returns {A}.
Arguments Throws {A}.
Arguments OutsideTypes {A}.

(** A computation runs after some invocations of [call] and may add its own. *)
Definition Async (A : Type) := Trace -> Outcome A * Trace.

Definition ret {A} (a : A) : Async A := fun t => (Returns a, t).

Definition throw {A} (e : Thrown) : Async A := fun t => (Throws e, t).

Definition bind {A B} (m : Async A) (k : A -> Async B) : Async B :=
  fun t =>
    match m t with
    | (Returns a, t') => k a t'
    | (Throws e, t') => (Throws e, t')
    | (OutsideTypes, t') => (OutsideTypes, t')
    end.

Declare Scope async_scope.
Delimit Scope async_scope with async.
Notation "x <- m ;; k" := (bind m (fun x => k))
  (at level 100, m at next level, right associativity) : async_scope.
Local Open Scope async_scope.

(** [try { body } catch (error) { handler }] *)
Definition try_catch {A} (body : Async A) (handler : Thrown -> Async A) : Async A :=
  fun t =>
    match body t with
    | (Throws e, t') => handler e t'
    | other => other
    end.

(** A synchronous function that may throw. *)
Definition sync {A} (r : Thrown + A) : Async A :=
  match r with
  | inl e => throw e
  | inr a => ret a
  end.

(** The view of an array of files at its declared type [MagickInputFile[]]. *)
Fixpoint as_files (xs : list Value) : option (list MagickInputFile) :=
  match xs with
  | [] => Some []
  | VFile f :: rest => option_map (cons f) (as_files rest)
  | _ => None
  end.

Definition files_of (v : Value) : option (list MagickInputFile) :=
  match v with
  | VArray xs => as_files xs
  | _ => None
  end.

Definition typed_files (v : Value) : Async (list MagickInputFile) :=
  match files_of v with
  | Some fs => ret fs
  | None => fun t => (OutsideTypes, t)
  end.

(* ================================================================= *)
(** ** execute.ts *)

Section Execute.
Context {E : Externals}.

(** [await call(inputFiles, command)], recorded in the history. *)
Definition invoke (inputFiles : list MagickInputFile) (command : list string)
  : Async CallResult :=
  fun t =>
    match call t inputFiles command with
    | Completed result => (Returns result, t ++ [mkInvocation inputFiles command])
    | Faulted error => (Throws error, t ++ [mkInvocation inputFiles command])
    end.

Definition isExecuteConfig (arg : Value) : Thrown + bool :=
  match get_property arg "commands" with
  | inl e => inl e
  | inr c => inr (truthy c)
  end.

Definition asExecuteConfig (configOrCommandOrFiles command : Value) : Thrown + Value :=
  match isExecuteConfig configOrCommandOrFiles with
  | inl e => inl e
  | inr true => inr configOrCommandOrFiles
  | inr false =>
      if isArray configOrCommandOrFiles
         && isInputFile (first_element configOrCommandOrFiles)
      then
        if negb (truthy command) then inl (Error "No command given")
        else inr (VObject [("inputFiles", configOrCommandOrFiles);
                           ("commands", command)])
      else
        inr (VObject [("inputFiles", VArray []);
                      ("commands", configOrCommandOrFiles)])
  end.

(** [config.inputFiles = config.inputFiles || []], at its declared type. *)
Definition config_inputFiles (config : Value) : Async (list MagickInputFile) :=
  v <- sync (get_property config "inputFiles") ;;
  typed_files (or_else v (VArray [])).

Definition executeOne (configOrCommand execCommand : Value) : Async ExecuteResultOne :=
  config <- sync (asExecuteConfig configOrCommand execCommand) ;;
  inputFiles <- config_inputFiles config ;;
  commandsV <- sync (get_property config "commands") ;;
  match asCommand commandsV with
  | [] =>
      (* [command] is [undefined] and [command.map] raises, outside the [try] *)
      throw (TypeError "Cannot read property 'map' of undefined")
  | command :: _ =>
      let result :=
        {| cr_stdout := [];
           cr_stderr := [];
           cr_outputFiles := [];
           cr_exitCode := 1;
           cr_command := map token_to_string command;
           cr_inputFiles := inputFiles |} in
      try_catch
        (result' <- invoke inputFiles (map token_to_string command) ;;
         if negb (cr_exitCode result' =? 0)%Z
         then ret (with_errors result'
                [Some ("exit code: " ++ number_to_string (cr_exitCode result')
                       ++ " stderr: " ++ join newline (cr_stderr result'))%string])
         else ret (with_errors result' [None]))
        (* nothing after the assignment to [result] can raise, so a caught
           error finds [result] as it was initialised *)
        (fun error =>
           ret (with_errors result
                [Some (thrown_to_string error
                       ++ ", exit code: " ++ number_to_string (cr_exitCode result)
                       ++ ", stderr: " ++ join newline (cr_stderr result))%string]))
  end.

(** The variables of [execute] that [mapper] closes over; [results_] is
    the array [results]. *)
Record Locals := mkLocals {
  allOutputFiles : JsObject MagickOutputFile;
  allInputFiles : JsObject MagickInputFile;
  allErrors : list (option string);
  results_ : list ExecuteResultOne;
  allStdout : list string;
  allStderr : list string
}.

(** [pMap(commands, mapper, { concurrency: 1 })]: one element at a time, in
    order; a rejection ends the iteration. *)
Fixpoint pMap_serial {A S : Type} (mapper : A -> S -> Async S) (xs : list A) (s : S)
  : Async S :=
  match xs with
  | [] => ret s
  | x :: rest => s' <- mapper x s ;; pMap_serial mapper rest s'
  end.

(** [pMap(result.outputFiles, async f => ...)] without a bound on the
    concurrency: every callback runs up to its [await] in array order,
    which writes [allOutputFiles]; the writes to [allInputFiles] follow as
    the coercions settle. *)
Definition absorb (outs : list MagickOutputFile) (l : Locals) : Locals :=
  {| allOutputFiles :=
       fold_left (fun o f => assign (name f) f o) outs (allOutputFiles l);
     allInputFiles :=
       fold_left (fun o f => let inputFile := asInputFile (OutputFile f) in
                             assign (name inputFile) inputFile o)
                 (settleOrder (List.length (results_ l)) outs) (allInputFiles l);
     allErrors := allErrors l;
     results_ := results_ l;
     allStdout := allStdout l;
     allStderr := allStderr l |}.

Definition mapper (c : Command) (l : Locals) : Async Locals :=
  let thisConfig :=
    VObject [("inputFiles", files_value (values (allInputFiles l)));
             ("commands", VArray [command_value c])] in
  result <- executeOne thisConfig VUndefined ;;
  let l' :=
    {| allOutputFiles := allOutputFiles l;
       allInputFiles := allInputFiles l;
       allErrors := allErrors l ++ errors result;
       results_ := results_ l ++ [result];
       allStdout := allStdout l ++ stdout result;
       allStderr := allStderr l ++ stderr result |} in
  ret (absorb (outputFiles result) l').

Definition execute (configOrCommandOrFiles command : Value) : Async ExecuteResult :=
  config <- sync (asExecuteConfig configOrCommandOrFiles command) ;;
  inputFiles <- config_inputFiles config ;;
  let l0 :=
    {| allOutputFiles := [];
       allInputFiles := fold_left (fun o f => assign (name f) f o) inputFiles [];
       allErrors := [];
       results_ := [];
       allStdout := [];
       allStderr := [] |} in
  commandsV <- sync (get_property config "commands") ;;
  let commands := asCommand commandsV in
  l <- pMap_serial mapper commands l0 ;;
  let resultWithError := find (fun r => negb (exitCode r =? 0)%Z) (results_ l) in
  ret {| aggregate :=
           {| outputFiles := values (allOutputFiles l);
              errors := allErrors l;
              stdout := allStdout l;
              stderr := allStderr l;
              exitCode := match resultWithError with
                          | Some r => exitCode r
                          | None => 0
                          end;
              command := [];
              inputFiles := inputFiles |};
         results := results_ l;
         commands := commands |}.

(** [result.outputFiles.length && result.outputFiles[0] || undefined] *)
Definition executeAndReturnOutputFile (configOrCommand command : Value)
  : Async (option MagickOutputFile) :=
  config <- sync (asExecuteConfig configOrCommand command) ;;
  result <- execute config VUndefined ;;
  ret (hd_error (outputFiles (aggregate result))).
End Execute.

(* ================================================================= *)
(** ** imageHome.ts *)

(** The registry [ImageHomeImpl] as a state: its two fields and the promise
    objects it has created.  Its methods are state transformers; what
    happens between two calls (a coercion completes, a continuation runs) is
    an event of its own. *)
Module ImageHome.

Inductive PromiseState :=
| Pending
| Fulfilled (file : MagickInputFile).

(** [Promise<MagickInputFile> & { resolved: true }]: the promise that
    [asInputFile(source)] returned, and its property [resolved], which is
    absent ([false] here) until the continuation attached by [register]
    has run. *)
Record MagickInputFilePromise := mkPromise {
  source : MagickFile;
  state : PromiseState;
  resolved : bool
}.

(** A promise object is referred to by the position at which it was
    created. *)
Definition PromiseRef := nat.

(** The fields of an instance, and the promise objects that it created. *)
Record ImageHomeImpl := mkImageHome {
  images : JsObject PromiseRef;
  builtInImagesAdded : bool;
  promises : list MagickInputFilePromise
}.

Definition createImageHome : ImageHomeImpl :=
  {| images := []; builtInImagesAdded := false; promises := [] |}.

Definition get (name : string) (h : ImageHomeImpl) : option PromiseRef :=
  lookup name (images h).

(** [Object.keys(this.images).forEach(name => ...)]: every key that
    [names] holds gives up its promise and is deleted. *)
Definition remove (names : list string) (h : ImageHomeImpl)
  : list PromiseRef * ImageHomeImpl :=
  let '(result, images') :=
    fold_left
      (fun '(result, imgs) name_ =>
         if existsb (String.eqb name_) names
         then (match lookup name_ imgs with
               | Some p => result ++ [p]
               | None => result
               end,
               delete name_ imgs)
         else (result, imgs))
      (keys (images h)) ([], images h) in
  (result,
   {| images := images';
      builtInImagesAdded := builtInImagesAdded h;
      promises := promises h |}).

(** [register(file, name = file.name)]: the promise is created pending, is
    stored under [name], and is returned. *)
Definition register (file : MagickFile) (name_ : option string) (h : ImageHomeImpl)
  : PromiseRef * ImageHomeImpl :=
  let name_ := match name_ with Some n => n | None => name file end in
  let promise := List.length (promises h) in
  (promise,
   {| images := assign name_ promise (images h);
      builtInImagesAdded := builtInImagesAdded h;
      promises := promises h
                  ++ [{| source := file; state := Pending; resolved := false |}] |}).

(** [p.resolved], a property that is [true] or absent. *)
Definition resolved_property (p : PromiseRef) (h : ImageHomeImpl) : Value :=
  match nth_error (promises h) p with
  | Some cell => if resolved cell then VBool true else VUndefined
  | None => VUndefined
  end.

(** [this.images[name] && (andReady && this.images[name].resolved)];
    [andReady] is [true] when the caller leaves it out. *)
Definition isRegistered (name : string) (andReady : bool) (h : ImageHomeImpl) : Value :=
  match lookup name (images h) with
  | None => VUndefined
  | Some p => if andReady then resolved_property p h else VBool false
  end.

Fixpoint update_nth {A : Type} (n : nat) (f : A -> A) (l : list A) : list A :=
  match l, n with
  | [], _ => []
  | x :: rest, O => f x :: rest
  | x :: rest, S n' => x :: update_nth n' f rest
  end.

Definition update_promise (p : PromiseRef)
    (f : MagickInputFilePromise -> MagickInputFilePromise) (h : ImageHomeImpl)
  : ImageHomeImpl :=
  {| images := images h;
     builtInImagesAdded := builtInImagesAdded h;
     promises := update_nth p f (promises h) |}.

(** One turn of the loop of [remove], on the promises collected and the
    entries left so far. *)
Definition remove_step (names : list string)
    (acc : list PromiseRef * JsObject PromiseRef)
  : string -> list PromiseRef * JsObject PromiseRef :=
  let '(result, imgs) := acc in
  fun name_ =>
    if existsb (String.eqb name_) names
    then (match lookup name_ imgs with
          | Some p => result ++ [p]
          | None => result
          end, delete name_ imgs)
    else (result, imgs).

(** The promise that [register] creates for [file]. *)
Definition pending (file : MagickFile) : MagickInputFilePromise :=
  {| source := file; state := Pending; resolved := false |}.

(** The property [resolved] is only ever set on a fulfilled promise. *)
Definition resolved_after_fulfilment (h : ImageHomeImpl) : Prop :=
  Forall (fun cell => resolved cell = true -> exists file, state cell = Fulfilled file)
         (promises h).

(** A call [register(file, name)], by its arguments. *)
Definition Registration := (MagickFile * option string)%type.

(** The name under which a call registers. *)
Definition registered_name (r : Registration) : string :=
  match snd r with
  | Some n => n
  | None => name (fst r)
  end.

(** The calls [regs], one after the other. *)
Definition register_all (regs : list Registration) (h : ImageHomeImpl) : ImageHomeImpl :=
  fold_left (fun h r => snd (register (fst r) (snd r) h)) regs h.

(** The promise of the last of the calls [regs] that registers the name [n],
    when the first call creates promise [i]. *)
Fixpoint last_registration (i : nat) (n : string) (regs : list Registration)
  : option PromiseRef :=
  match regs with
  | [] => None
  | r :: rest =>
      match last_registration (S i) n rest with
      | Some p => Some p
      | None => if registered_name r =? n then Some i else None
      end
  end.

Section WithExternals.
Context {E : Externals}.

(** The coercion behind promise [p] completes. *)
Definition settle (p : PromiseRef) (h : ImageHomeImpl) : ImageHomeImpl :=
  update_promise p
    (fun cell =>
       match state cell with
       | Pending => {| source := source cell;
                       state := Fulfilled (asInputFile (source cell));
                       resolved := resolved cell |}
       | Fulfilled _ => cell
       end) h.

(** The continuation [() => { promise.resolved = true }] of promise [p]
    runs; it can only after the promise is fulfilled. *)
Definition continuation (p : PromiseRef) (h : ImageHomeImpl) : ImageHomeImpl :=
  update_promise p
    (fun cell =>
       match state cell with
       | Pending => cell
       | Fulfilled _ => {| source := source cell;
                           state := state cell;
                           resolved := true |}
       end) h.

(** [promise.resolved], read as a condition. *)
Definition is_resolved (p : PromiseRef) (h : ImageHomeImpl) : bool :=
  match nth_error (promises h) p with
  | Some cell => resolved cell
  | None => false
  end.

(** Where a call of the asynchronous [addBuiltInImages] stands: it found
    the flag unset and awaits [getBuiltInImages()]; it has registered the
    images and awaits [pMap], that is the promises that [register] returned;
    it has returned. *)
Inductive AddBuiltInImagesCall :=
| Fetching
| Mapping (awaited : list PromiseRef)
| Returned.

(** [addBuiltInImages()] up to its first [await]: the test of the flag. *)
Definition addBuiltInImages (h : ImageHomeImpl) : AddBuiltInImagesCall :=
  if negb (builtInImagesAdded h) then Fetching else Returned.

(** [img => this.register(img)] on every built-in image, in order. *)
Definition registerBuiltInImages (h : ImageHomeImpl) : ImageHomeImpl :=
  fold_left (fun h img => snd (register img None h)) getBuiltInImages h.

(** [this.builtInImagesAdded = true] *)
Definition setBuiltInImagesAdded (h : ImageHomeImpl) : ImageHomeImpl :=
  {| images := images h;
     builtInImagesAdded := true;
     promises := promises h |}.

(** The call goes on from where it stands, as far as it can in the state
    [h].  After [getBuiltInImages()] it registers every image and awaits
    the promises.  Modelled from the spec: [pMap] of [p-map], which is not
    among the sources, calls the mapper on the images in their order and
    is fulfilled once every promise that the mapper returned is; the
    continuation that [register] attached to such a promise was attached
    first, so it has run by then: the call stays where it is until every
    awaited promise is resolved, and then sets the flag. *)
Definition resume (c : AddBuiltInImagesCall) (h : ImageHomeImpl)
  : AddBuiltInImagesCall * ImageHomeImpl :=
  match c with
  | Fetching =>
      (Mapping (seq (List.length (promises h)) (List.length getBuiltInImages)),
       registerBuiltInImages h)
  | Mapping awaited =>
      if forallb (fun p => is_resolved p h) awaited
      then (Returned, setBuiltInImagesAdded h)
      else (c, h)
  | Returned => (Returned, h)
  end.

(** What can happen to an instance, one after the other: a call of
    [register] or of [remove]; a call of [addBuiltInImages] that found the
    flag unset goes through its registrations; such a call, awaiting the
    promises [awaited], finds them resolved and sets the flag; a coercion
    completes; a continuation runs. *)
Inductive Event :=
| Register (file : MagickFile) (name_ : option string)
| Remove (names : list string)
| AddBuiltInImages
| BuiltInImagesAdded (awaited : list PromiseRef)
| Settle (p : PromiseRef)
| Continuation (p : PromiseRef).

Definition occur (h : ImageHomeImpl) (e : Event) : ImageHomeImpl :=
  match e with
  | Register file name_ => snd (register file name_ h)
  | Remove names => snd (remove names h)
  | AddBuiltInImages => snd (resume Fetching h)
  | BuiltInImagesAdded awaited => snd (resume (Mapping awaited) h)
  | Settle p => settle p h
  | Continuation p => continuation p h
  end.

Definition run (events : list Event) (h : ImageHomeImpl) : ImageHomeImpl :=
  fold_left occur events h.

(** Every entry of [images] refers to a promise of the instance. *)
Definition valid_refs (h : ImageHomeImpl) : Prop :=
  forall n p, get n h = Some p -> exists cell, nth_error (promises h) p = Some cell.

(** A fulfilled promise holds the coercion of the file it was created for. *)
Definition fulfilled_by_coercion (h : ImageHomeImpl) : Prop :=
  Forall (fun cell => forall file, state cell = Fulfilled file ->
                                   file = asInputFile (source cell))
         (promises h).

(** An event that writes or deletes the entry of the name [n]. *)
Definition touches (n : string) (e : Event) : bool :=
  match e with
  | Register file name_ => registered_name (file, name_) =? n
  | Remove names => existsb (String.eqb n) names
  | AddBuiltInImages => existsb (fun img => name img =? n) getBuiltInImages
  | BuiltInImagesAdded _ | Settle _ | Continuation _ => false
  end.
End WithExternals.

(** What [await]ing the promise [p] gives in the state [h]: nothing while
    the promise is pending. *)
Definition awaited (p : PromiseRef) (h : ImageHomeImpl) : option MagickInputFile :=
  match nth_error (promises h) p with
  | Some cell =>
      match state cell with
      | Fulfilled file => Some file
      | Pending => None
      end
  | None => None
  end.

(** [Promise.all(ps)] in the state [h]: the values of the promises, in the
    order of [ps], once every one of them is fulfilled. *)
Fixpoint promise_all (ps : list PromiseRef) (h : ImageHomeImpl)
  : option (list MagickInputFile) :=
  match ps with
  | [] => Some []
  | p :: rest =>
      match awaited p h, promise_all rest h with
      | Some file, Some files => Some (file :: files)
      | _, _ => None
      end
  end.

(** [await Promise.all(values(this.images))]: [getAll] called in the state
    [called] and looked at in the state [now] that the instance has reached
    since; [None] while it is still waiting. *)
Definition getAll (called now : ImageHomeImpl) : option (list MagickInputFile) :=
  promise_all (values (images called)) now.

End ImageHome.

(* ================================================================= *)
(** ** Vocabulary of the properties *)

(** An [ExecuteConfig] object: [{ inputFiles, commands }], or
    [{ commands }] when the optional [inputFiles] is left out. *)
Definition config_value (inputFiles : option (list MagickInputFile)) (commands : Value)
  : Value :=
  VObject (match inputFiles with
           | Some fs => [("inputFiles", files_value fs)]
           | None => []
           end ++ [("commands", commands)]).

(** An object whose property [commands] is truthy. *)
Definition has_truthy_commands (v : Value) : bool :=
  match v with
  | VObject props => truthy (own_property "commands" props)
  | _ => false
  end.

(** An object that carries the key [k]. *)
Definition has_key (k : string) (v : Value) : bool :=
  match v with
  | VObject props => existsb (fun p => fst p =? k) props
  | _ => false
  end.

(** The file that a pool written in the order of [l], later files
    overwriting earlier ones of the same name, holds under the name [n]. *)
Definition latest_named {A : Type} `{Named A} (n : string) (l : list A) : option A :=
  find (fun f => name f =? n) (rev l).

(** Writing the files of [l], in order, each under its name. *)
Definition write_all {A : Type} `{Named A} (l : list A) (o : JsObject A) : JsObject A :=
  fold_left (fun o f => assign (name f) f o) l o.

(** A pool of files: no key twice, every file under its own name. *)
Definition named_pool {A : Type} `{Named A} (o : JsObject A) : Prop :=
  NoDup (slots o) /\ Forall (fun p => fst p = name (snd p)) o.

Section Vocabulary.
Context {E : Externals}.

(** The input files and the steps that a call of [execute] or [executeOne]
    starts from: what [asExecuteConfig], the default for [inputFiles] and
    [asCommand] make of the arguments.  [None] when the call shape is
    refused or the files are not of their declared type. *)
Definition normalized (arg command : Value)
  : option (list MagickInputFile * list Command) :=
  match asExecuteConfig arg command with
  | inr config =>
      match get_property config "inputFiles", get_property config "commands" with
      | inr inputFilesV, inr commandsV =>
          match files_of (or_else inputFilesV (VArray [])) with
          | Some fs => Some (fs, asCommand commandsV)
          | None => None
          end
      | _, _ => None
      end
  | inl _ => None
  end.

(** The output files of step [k] (counted from 1) as they enter the pool
    of input files. *)
Definition coerced (k : nat) (outs : list MagickOutputFile) : list MagickInputFile :=
  map (fun f => asInputFile (OutputFile f)) (settleOrder k outs).

(** What the steps numbered from [k] on, whose results are [rs], add to the
    pool of input files, in the order of the writes. *)
Fixpoint absorbed_from (k : nat) (rs : list ExecuteResultOne) : list MagickInputFile :=
  match rs with
  | [] => []
  | r :: rest => coerced k (outputFiles r) ++ absorbed_from (S k) rest
  end.

(** What the first [k] steps of a batch with results [rs] add to the pool. *)
Definition absorbed_before (k : nat) (rs : list ExecuteResultOne) : list MagickInputFile :=
  absorbed_from 1 (firstn k rs).

(** The result that [executeOne] builds when the primitive faults. *)
Definition default_result (inputFiles : list MagickInputFile) (c : Command) : CallResult :=
  {| cr_stdout := [];
     cr_stderr := [];
     cr_outputFiles := [];
     cr_exitCode := 1;
     cr_command := map token_to_string c;
     cr_inputFiles := inputFiles |}.

(** The result of one step, read off the answer of the primitive. *)
Definition attempt (inputFiles : list MagickInputFile) (c : Command) (t : Trace)
  : ExecuteResultOne :=
  match call t inputFiles (map token_to_string c) with
  | Completed result =>
      if negb (cr_exitCode result =? 0)%Z
      then with_errors result
             [Some ("exit code: " ++ number_to_string (cr_exitCode result)
                    ++ " stderr: " ++ join newline (cr_stderr result))%string]
      else with_errors result [None]
  | Faulted error =>
      with_errors (default_result inputFiles c)
        [Some (thrown_to_string error ++ ", exit code: 1, stderr: ")%string]
  end.

(** The locals of [execute] after one more step with result [r]. *)
Definition after_step (r : ExecuteResultOne) (l : Locals) : Locals :=
  absorb (outputFiles r)
    {| allOutputFiles := allOutputFiles l;
       allInputFiles := allInputFiles l;
       allErrors := allErrors l ++ errors r;
       results_ := results_ l ++ [r];
       allStdout := allStdout l ++ stdout r;
       allStderr := allStderr l ++ stderr r |}.

(** The locals and the history after the steps [cs], none of which throws. *)
Fixpoint steps (cs : list Command) (l : Locals) (t : Trace) : Locals * Trace :=
  match cs with
  | [] => (l, t)
  | c :: rest =>
      let inputs := values (allInputFiles l) in
      steps rest (after_step (attempt inputs c t) l)
            (t ++ [mkInvocation inputs (map token_to_string c)])
  end.

(** The locals of [execute] before the first step. *)
Definition initial_locals (inputFiles : list MagickInputFile) : Locals :=
  {| allOutputFiles := [];
     allInputFiles := fold_left (fun o f => assign (name f) f o) inputFiles [];
     allErrors := [];
     results_ := [];
     allStdout := [];
     allStderr := [] |}.

(** The [ExecuteResult] that [execute] builds from its locals. *)
Definition summary (inputFiles : list MagickInputFile) (cs : list Command) (l : Locals)
  : ExecuteResult :=
  {| aggregate :=
       {| outputFiles := values (allOutputFiles l);
          errors := allErrors l;
          stdout := allStdout l;
          stderr := allStderr l;
          exitCode := match find (fun r => negb (exitCode r =? 0)%Z) (results_ l) with
                      | Some r => exitCode r
                      | None => 0
                      end;
          command := [];
          inputFiles := inputFiles |};
     results := results_ l;
     commands := cs |}.

(** The aggregate exit code is that of the first result, front to back,
    whose exit code is not zero, and zero when there is none. *)
Definition first_failure_wins (r : ExecuteResult) : Prop :=
  ((forall x, In x (results r) -> exitCode x = 0%Z) -> exitCode (aggregate r) = 0%Z)
  /\ (forall pre x post,
        results r = pre ++ x :: post ->
        (forall y, In y pre -> exitCode y = 0%Z) ->
        exitCode x <> 0%Z ->
        exitCode (aggregate r) = exitCode x).

(** A batch that stops at its first failing step: the step of a result with
    a non-zero exit code is the last to have run. *)
Definition halts_after_failure (r : ExecuteResult) (invs : list Invocation) : Prop :=
  forall k x,
    nth_error (results r) k = Some x ->
    exitCode x <> 0%Z ->
    List.length (results r) = S k /\ List.length invs = S k.





(** *** What is assumed of the collaborators *)

(** [asCommand] hands a batch of one token array back as it is. *)
Definition asCommand_keeps_batch : Prop :=
  forall c : Command, asCommand (VArray [command_value c]) = [c].


End Vocabulary.

(* ================================================================= *)
(** ** A stand-in for the collaborators, to run the definitions *)

Module Demo.

Definition tokens_of (v : Value) : option Command :=
  match v with
  | VArray xs =>
      fold_right
        (fun x acc =>
           match x, acc with
           | VString s, Some c => Some (TString s :: c)
           | VNumber n, Some c => Some (TNumber n :: c)
           | _, _ => None
           end)
        (Some []) xs
  | _ => None
  end.

(** Arrays only: a batch of token arrays is handed back as it is, a single
    token array becomes a batch of one. *)
Definition demo_asCommand (v : Value) : list Command :=
  match tokens_of v with
  | Some [] => []
  | Some c => [c]
  | None =>
      match v with
      | VArray xs =>
          flat_map (fun x => match tokens_of x with Some c => [c] | None => [] end) xs
      | _ => []
      end
  end.

(** [fail ...] exits with code 2, [throw ...] rejects, anything else
    writes one file named by its last argument. *)
Definition demo_call (t : Trace) (inputFiles : list MagickInputFile) (command : list string)
  : CallOutcome :=
  match command with
  | "fail" :: _ =>
      Completed {| cr_stdout := []; cr_stderr := ["no such file"];
                   cr_outputFiles := []; cr_exitCode := 2;
                   cr_command := command; cr_inputFiles := inputFiles |}
  | "throw" :: _ => Faulted (Error "abort")
  | _ =>
      Completed {| cr_stdout := ["ok"]; cr_stderr := [];
                   cr_outputFiles := [mkOutputFile (last command "") []];
                   cr_exitCode := 0;
                   cr_command := command; cr_inputFiles := inputFiles |}
  end.

Definition demo_asInputFile (f : MagickFile) : MagickInputFile :=
  match f with
  | InputFile i => i
  | OutputFile o => mkInputFile (name o) (blob o)
  end.

Definition demo_isInputFile (v : Value) : bool :=
  match v with VFile _ => true | _ => false end.

#[local] Instance externals : Externals :=
  {| call := demo_call;
     asCommand := demo_asCommand;
     asInputFile := demo_asInputFile;
     isInputFile := demo_isInputFile;
     settleOrder := fun _ outs => outs;
     getBuiltInImages := [InputFile (mkInputFile "rose:" []);
                          InputFile (mkInputFile "logo:" [])] |}.

Definition photo : MagickInputFile := mkInputFile "photo.png" [].

Definition convert (src dst : string) : Command :=
  [TString "convert"; TString src; TString dst].

Definition batch (cs : list Command) : Value := VArray (map command_value cs).

(** [{ inputFiles: [photo], commands: [[convert ...], [fail], [convert ...]] }] *)
Definition three_steps : list Command :=
  [convert "photo.png" "a.png"; [TString "fail"]; convert "a.png" "b.png"].

Definition three_steps_config : Value :=
  config_value (Some [photo]) (batch three_steps).

(** [{ inputFiles: [photo], commands: [[fail], [convert ...]] }] *)
Definition failure_first : list Command :=
  [[TString "fail"]; convert "photo.png" "out.png"].

Definition failure_first_config : Value :=
  config_value (Some [photo]) (batch failure_first).

(** [{ commands: [[throw]] }] *)
Definition throwing_config : Value := config_value None (batch [[TString "throw"]]).

(** [{ inputFiles: [photo], commands: '' }] *)
Definition empty_command_config : Value := config_value (Some [photo]) (VString "").

(** Two caller files of one name, and two steps that write one name. *)
Definition same_names_config : Value :=
  config_value (Some [photo; mkInputFile "photo.png" [Byte.x01]])
               (batch [convert "photo.png" "a.png"; convert "photo.png" "a.png"]).


End Demo.

(* ================================================================= *)
(** ** Facts about name-keyed objects *)

Unset Implicit Arguments.

Lemma find_app {A : Type} (p : A -> bool) (l1 l2 : list A) :
  find p (l1 ++ l2) = match find p l1 with
                      | Some x => Some x
                      | None => find p l2
                      end.
Proof.
  induction l1 as [|x l1 IH]; simpl; [reflexivity|].
  destruct (p x); [reflexivity | exact IH].
Qed.

Lemma ordinary_true (k : string) : ordinary k = true <-> k <> proto_key.
Proof.
  unfold ordinary. destruct (String.eqb_spec k proto_key) as [->|Hne]; simpl.
  - split; [discriminate|]. intros Hne. now contradiction Hne.
  - tauto.
Qed.

Section JsObjectFacts.
Variable V : Type.
Implicit Types (o : JsObject V) (k : string) (v : V).

Lemma lookup_app k o1 o2 :
  lookup k (o1 ++ o2) = match lookup k o1 with
                        | Some v => Some v
                        | None => lookup k o2
                        end.
Proof.
  induction o1 as [|[k' v'] o1 IH]; simpl; [reflexivity|].
  destruct (k =? k'); [reflexivity | exact IH].
Qed.

Lemma lookup_None_keys k o : lookup k o = None <-> ~ In k (slots o).
Proof.
  induction o as [|[k' v'] o IH]; simpl.
  - tauto.
  - destruct (String.eqb_spec k k') as [->|Hne].
    + split; [discriminate | intros H; exfalso; apply H; now left].
    + rewrite IH. split; [intros H [Heq|Hin]; [congruence | tauto] | tauto].
Qed.

Lemma lookup_Some_In k v o : lookup k o = Some v -> In (k, v) o.
Proof.
  induction o as [|[k' v'] o IH]; simpl; [discriminate|].
  destruct (String.eqb_spec k k') as [->|Hne].
  - intros [= ->]. now left.
  - intros H. right. now apply IH.
Qed.

Lemma In_lookup_Some k v o :
  NoDup (slots o) -> In (k, v) o -> lookup k o = Some v.
Proof.
  induction o as [|[k' v'] o IH]; simpl; [tauto|].
  intros Hnd [Heq|Hin].
  - injection Heq as -> ->. now rewrite String.eqb_refl.
  - inversion Hnd as [|? ? Hnotin Hnd']; subst.
    destruct (String.eqb_spec k k') as [->|Hne].
    + exfalso. apply Hnotin. change (In (fst (k', v)) (map fst o)).
      now apply in_map.
    + now apply IH.
Qed.

Lemma keys_overwrite k v o : slots (overwrite k v o) = slots o.
Proof.
  induction o as [|[k' v'] o IH]; simpl; [reflexivity|].
  destruct (String.eqb_spec k k') as [->|Hne]; simpl; [reflexivity|].
  now rewrite IH.
Qed.

Lemma lookup_overwrite_eq k v o :
  lookup k o <> None -> lookup k (overwrite k v o) = Some v.
Proof.
  induction o as [|[k' v'] o IH]; simpl; [congruence|].
  destruct (String.eqb_spec k k') as [->|Hne]; simpl.
  - now rewrite String.eqb_refl.
  - intros H. apply String.eqb_neq in Hne. rewrite Hne. now apply IH.
Qed.

Lemma lookup_overwrite_ne k k' v o :
  k' <> k -> lookup k' (overwrite k v o) = lookup k' o.
Proof.
  intros Hne. induction o as [|[k0 v0] o IH]; simpl; [reflexivity|].
  destruct (String.eqb_spec k k0) as [->|Hne0]; simpl.
  - apply String.eqb_neq in Hne. now rewrite Hne.
  - now rewrite IH.
Qed.

Lemma In_overwrite p k v o : In p (overwrite k v o) -> p = (k, v) \/ In p o.
Proof.
  induction o as [|[k' v'] o IH]; simpl; [tauto|].
  destruct (k =? k'); simpl; intuition.
Qed.

Lemma insert_index_perm i k v o : Permutation (insert_index i k v o) ((k, v) :: o).
Proof.
  induction o as [|[k' v'] o IH]; simpl; [reflexivity|].
  destruct (array_index k') as [j|]; [|reflexivity].
  destruct (j <? i)%N; [|reflexivity].
  rewrite IH. apply perm_swap.
Qed.

Lemma lookup_insert_index_eq i k v o :
  lookup k o = None -> lookup k (insert_index i k v o) = Some v.
Proof.
  induction o as [|[k' v'] o IH]; simpl.
  - now rewrite String.eqb_refl.
  - destruct (String.eqb_spec k k') as [->|Hne]; [discriminate|].
    intros Hnone.
    destruct (array_index k') as [j|]; [destruct (j <? i)%N|]; simpl;
      rewrite ?String.eqb_refl; try reflexivity.
    apply String.eqb_neq in Hne. rewrite Hne. now apply IH.
Qed.

Lemma lookup_insert_index_ne i k k' v o :
  k' <> k -> lookup k' (insert_index i k v o) = lookup k' o.
Proof.
  intros Hne. pose proof Hne as Hneb. apply String.eqb_neq in Hneb.
  induction o as [|[k0 v0] o IH]; simpl.
  - now rewrite Hneb.
  - destruct (array_index k0) as [j|]; [destruct (j <? i)%N|]; simpl;
      rewrite ?Hneb; try reflexivity.
    now rewrite IH.
Qed.

(** Reading back what was written. *)
Lemma lookup_assign_eq k v o : lookup k (assign k v o) = Some v.
Proof.
  unfold assign. destruct (lookup k o) eqn:Hl.
  - apply lookup_overwrite_eq. congruence.
  - destruct (array_index k).
    + now apply lookup_insert_index_eq.
    + rewrite lookup_app, Hl. simpl. now rewrite String.eqb_refl.
Qed.

(** A write leaves every other key as it was. *)
Lemma lookup_assign_ne k k' v o : k' <> k -> lookup k' (assign k v o) = lookup k' o.
Proof.
  intros Hne. unfold assign. destruct (lookup k o) eqn:Hl.
  - now apply lookup_overwrite_ne.
  - destruct (array_index k).
    + now apply lookup_insert_index_ne.
    + rewrite lookup_app. destruct (lookup k' o); [reflexivity|].
      simpl. apply String.eqb_neq in Hne. now rewrite Hne.
Qed.

Lemma In_assign p k v o : In p (assign k v o) -> p = (k, v) \/ In p o.
Proof.
  unfold assign. destruct (lookup k o).
  - apply In_overwrite.
  - destruct (array_index k).
    + intros H. apply (Permutation_in _ (insert_index_perm _ _ _ _)) in H.
      simpl in H. intuition.
    + rewrite in_app_iff. simpl. intuition.
Qed.

(** A write never makes a key occur twice. *)
Lemma NoDup_slots_assign k v o : NoDup (slots o) -> NoDup (slots (assign k v o)).
Proof.
  intros Hnd. unfold assign. destruct (lookup k o) eqn:Hl.
  - now rewrite keys_overwrite.
  - apply lookup_None_keys in Hl.
    assert (Hcons : NoDup (slots ((k, v) :: o))) by (simpl; now constructor).
    destruct (array_index k).
    + eapply Permutation_NoDup; [|exact Hcons].
      unfold slots. apply Permutation_map. symmetry. apply insert_index_perm.
    + eapply Permutation_NoDup; [|exact Hcons].
      unfold slots. apply Permutation_map.
      change ((k, v) :: o) with ([(k, v)] ++ o). apply Permutation_app_comm.
Qed.

Lemma NoDup_slots_delete k o : NoDup (slots o) -> NoDup (slots (delete k o)).
Proof.
  unfold slots, delete. destruct (ordinary k); [|tauto].
  induction o as [|[k' v'] o IH]; simpl; [tauto|].
  intros Hnd. inversion Hnd as [|? ? Hnotin Hnd']; subst.
  destruct (negb (k' =? k)); simpl; [|now apply IH].
  constructor; [|now apply IH].
  intros Hin. apply Hnotin. apply in_map_iff in Hin as [p [Hp Hin]].
  apply filter_In in Hin as [Hin _]. apply in_map_iff. now exists p.
Qed.

(** The own properties are the slots under ordinary names. *)
Lemma In_own p o : In p (own o) <-> In p o /\ ordinary (fst p) = true.
Proof. unfold own. apply filter_In. Qed.

Lemma In_keys k o : In k (keys o) <-> In k (slots o) /\ ordinary k = true.
Proof.
  unfold keys, slots. split.
  - intros Hin. apply in_map_iff in Hin as [p [Hp Hin]]. subst k.
    apply In_own in Hin as [Hin Hord]. split; [|exact Hord].
    apply in_map_iff. now exists p.
  - intros [Hin Hord]. apply in_map_iff in Hin as [p [Hp Hin]]. subst k.
    apply in_map_iff. exists p. split; [reflexivity|]. now apply In_own.
Qed.

Lemma NoDup_slots_filter (keep : string * V -> bool) o :
  NoDup (slots o) -> NoDup (slots (filter keep o)).
Proof.
  unfold slots. induction o as [|p o IH]; simpl; [tauto|].
  intros Hnd. inversion Hnd as [|? ? Hnotin Hnd']; subst.
  destruct (keep p); simpl; [|now apply IH].
  constructor; [|now apply IH].
  intros Hin. apply Hnotin. apply in_map_iff in Hin as [q [Hq Hin]].
  apply filter_In in Hin as [Hin _]. apply in_map_iff. now exists q.
Qed.

Lemma NoDup_keys o : NoDup (slots o) -> NoDup (keys o).
Proof. intros Hnd. exact (NoDup_slots_filter _ o Hnd). Qed.

(** Without a prototype slot every slot is an own property. *)
Lemma own_all o :
  Forall (fun p => ordinary (fst p) = true) o -> own o = o.
Proof.
  unfold own. induction o as [|p o IH]; intros Hall; [reflexivity|].
  inversion Hall as [|? ? Hp Ho]; subst. simpl. rewrite Hp. now rewrite IH.
Qed.
End JsObjectFacts.

(* ================================================================= *)
(** ** Facts about pools of named files *)

Section Pools.
Context {A : Type} {HN : Named A}.
Implicit Types (o : JsObject A) (f : A) (n : string).

Lemma write_all_app (l1 l2 : list A) o :
  write_all (l1 ++ l2) o = write_all l2 (write_all l1 o).
Proof. apply fold_left_app. Qed.

Lemma latest_named_cons n f (l : list A) :
  latest_named n (f :: l) =
  match latest_named n l with
  | Some x => Some x
  | None => if name f =? n then Some f else None
  end.
Proof. unfold latest_named. simpl. now rewrite find_app. Qed.


Lemma latest_named_Some n f (l : list A) :
  latest_named n l = Some f -> In f l /\ name f = n.
Proof.
  unfold latest_named. intros H. apply find_some in H as [Hin Hn].
  split; [now apply in_rev | now apply String.eqb_eq].
Qed.

Lemma latest_named_None n (l : list A) :
  latest_named n l = None -> forall f, In f l -> name f <> n.
Proof.
  unfold latest_named. intros H f Hin.
  apply String.eqb_neq. apply (find_none _ _ H). now apply in_rev in Hin.
Qed.

Lemma latest_named_hit n f (l : list A) :
  In f l -> name f = n -> exists f', latest_named n l = Some f'.
Proof.
  intros Hin Hn. destruct (latest_named n l) eqn:Hl; [eauto|].
  exfalso. eapply latest_named_None; eassumption.
Qed.

(** The pool after the writes: the latest file of the name among those
    written, and what was there before if none has the name. *)
Lemma lookup_write_all n (l : list A) : forall o,
  lookup n (write_all l o) =
  match latest_named n l with
  | Some f => Some f
  | None => lookup n o
  end.
Proof.
  induction l as [|f l IH]; intros o; [reflexivity|].
  change (write_all (f :: l) o) with (write_all l (assign (name f) f o)).
  rewrite IH, latest_named_cons.
  destruct (latest_named n l); [reflexivity|].
  destruct (String.eqb_spec (name f) n) as [<-|Hne].
  - apply lookup_assign_eq.
  - apply lookup_assign_ne. congruence.
Qed.

Lemma named_pool_nil : named_pool (@nil (string * A)).
Proof. split; constructor. Qed.

Lemma named_pool_assign f o : named_pool o -> named_pool (assign (name f) f o).
Proof.
  intros [Hnd Hall]. split; [now apply NoDup_slots_assign|].
  apply Forall_forall. intros p Hin. apply In_assign in Hin as [->|Hin].
  - reflexivity.
  - revert p Hin. now apply Forall_forall.
Qed.

Lemma named_pool_write_all (l : list A) : forall o,
  named_pool o -> named_pool (write_all l o).
Proof.
  induction l as [|f l IH]; intros o Ho; [exact Ho|].
  apply IH. now apply named_pool_assign.
Qed.

(** A pool lists a file exactly when it holds it under its name and the
    name is not [__proto__]. *)
Lemma In_values_lookup f o :
  named_pool o ->
  In f (values o) <-> lookup (name f) o = Some f /\ ordinary (name f) = true.
Proof.
  intros [Hnd Hall]. unfold values. split.
  - intros Hin. apply in_map_iff in Hin as [[k v] [Hv Hin]]. simpl in Hv. subst v.
    apply In_own in Hin as [Hin Hord]. simpl in Hord.
    assert (Hk : k = name f).
    { rewrite Forall_forall in Hall. exact (Hall _ Hin). }
    subst k. split; [now apply In_lookup_Some|exact Hord].
  - intros [Hl Hord]. apply lookup_Some_In in Hl.
    apply in_map_iff. exists (name f, f). split; [reflexivity|].
    apply In_own. now split.
Qed.

(** A pool lists at most one file of each name. *)
Lemma NoDup_names_values o : named_pool o -> NoDup (map name (values o)).
Proof.
  intros [Hnd Hall]. unfold values. rewrite map_map.
  replace (map (fun p => name (snd p)) (own o)) with (keys o);
    [now apply NoDup_keys|].
  unfold keys. apply map_ext_in. intros p Hin.
  apply In_own in Hin as [Hin _].
  rewrite Forall_forall in Hall. now apply Hall.
Qed.

(** No file that a pool lists is named [__proto__]. *)
Lemma values_ordinary f o :
  named_pool o -> In f (values o) -> ordinary (name f) = true.
Proof. intros Hp Hin. now apply (In_values_lookup f o Hp) in Hin. Qed.
End Pools.

(* ================================================================= *)
(** ** Facts about execute.ts *)

Section ExecuteFacts.
Context {E : Externals}.

Lemma as_files_map_VFile (fs : list MagickInputFile) : as_files (map VFile fs) = Some fs.
Proof.
  induction fs as [|f fs IH]; simpl; [reflexivity|]. now rewrite IH.
Qed.

Lemma normalized_inv arg command fs cs :
  normalized arg command = Some (fs, cs) ->
  exists config inputFilesV commandsV,
    asExecuteConfig arg command = inr config
    /\ get_property config "inputFiles" = inr inputFilesV
    /\ get_property config "commands" = inr commandsV
    /\ files_of (or_else inputFilesV (VArray [])) = Some fs
    /\ asCommand commandsV = cs.
Proof.
  unfold normalized.
  destruct (asExecuteConfig arg command) as [e|config]; [discriminate|].
  destruct (get_property config "inputFiles") as [e|inputFilesV] eqn:Hin;
    [discriminate|].
  destruct (get_property config "commands") as [e|commandsV] eqn:Hcmd;
    [discriminate|].
  destruct (files_of (or_else inputFilesV (VArray []))) as [fs'|] eqn:Hfiles;
    [|discriminate].
  intros [= <- <-]. now exists config, inputFilesV, commandsV.
Qed.

(** The configuration that [mapper] builds for one step. *)
Lemma normalized_thisConfig (fs : list MagickInputFile) (c : Command) :
  asCommand_keeps_batch ->
  normalized (VObject [("inputFiles", files_value fs);
                       ("commands", VArray [command_value c])]) VUndefined
  = Some (fs, [c]).
Proof.
  intros Hbatch. unfold normalized, asExecuteConfig, isExecuteConfig. simpl.
  unfold or_else, files_value. simpl.
  now rewrite as_files_map_VFile, Hbatch.
Qed.

(** [executeOne] on arguments that normalize to at least one command:
    one invocation of the primitive, and a result in every case. *)
Lemma executeOne_normalized arg command fs c rest t :
  normalized arg command = Some (fs, c :: rest) ->
  executeOne arg command t
  = (Returns (attempt fs c t), t ++ [mkInvocation fs (map token_to_string c)]).
Proof.
  intros Hn. apply normalized_inv in Hn
    as (config & inputFilesV & commandsV & Hcfg & Hin & Hcmd & Hfiles & Hcs).
  unfold executeOne, config_inputFiles, typed_files, bind, sync, ret.
  rewrite Hcfg. simpl. rewrite Hin. simpl. rewrite Hfiles. simpl.
  rewrite Hcmd. simpl. rewrite Hcs.
  unfold try_catch, bind, invoke, attempt, default_result, ret.
  destruct (call t fs (map token_to_string c)) as [result|error]; simpl.
  - now destruct (negb (cr_exitCode result =? 0)%Z).
  - reflexivity.
Qed.

Lemma mapper_step (c : Command) (l : Locals) (t : Trace) :
  asCommand_keeps_batch ->
  mapper c l t
  = (Returns (after_step (attempt (values (allInputFiles l)) c t) l),
     t ++ [mkInvocation (values (allInputFiles l)) (map token_to_string c)]).
Proof.
  intros Hbatch. unfold mapper, bind.
  erewrite executeOne_normalized by (now apply normalized_thisConfig).
  reflexivity.
Qed.

Lemma pMap_serial_steps (cs : list Command) :
  asCommand_keeps_batch ->
  forall l t, pMap_serial mapper cs l t = (Returns (fst (steps cs l t)), snd (steps cs l t)).
Proof.
  intros Hbatch. induction cs as [|c cs IH]; intros l t; [reflexivity|].
  simpl. unfold bind. rewrite (mapper_step c l t Hbatch). apply IH.
Qed.

(** [execute] on arguments that normalize: the summary of the locals after
    every step. *)
Lemma execute_normalized arg command fs cs t :
  asCommand_keeps_batch ->
  normalized arg command = Some (fs, cs) ->
  execute arg command t
  = (Returns (summary fs cs (fst (steps cs (initial_locals fs) t))),
     snd (steps cs (initial_locals fs) t)).
Proof.
  intros Hbatch Hn. apply normalized_inv in Hn
    as (config & inputFilesV & commandsV & Hcfg & Hin & Hcmd & Hfiles & Hcs).
  unfold execute, config_inputFiles, typed_files, bind, sync, ret.
  rewrite Hcfg. simpl. rewrite Hin. simpl. rewrite Hfiles. simpl.
  rewrite Hcmd. simpl. rewrite Hcs.
  change {| allOutputFiles := [];
            allInputFiles := fold_left (fun o f => assign (name f) f o) fs [];
            allErrors := []; results_ := []; allStdout := []; allStderr := [] |}
    with (initial_locals fs).
  rewrite (pMap_serial_steps cs Hbatch). reflexivity.
Qed.
Lemma write_all_map {A B : Type} `{Named B} (g : A -> B) (xs : list A) :
  forall o, write_all (map g xs) o
            = fold_left (fun o x => let y := g x in assign (name y) y o) xs o.
Proof.
  induction xs as [|x xs IH]; intros o; [reflexivity|]. simpl. apply IH.
Qed.

Lemma results_after_step r l : results_ (after_step r l) = results_ l ++ [r].
Proof. reflexivity. Qed.

Lemma allOutputFiles_after_step r l :
  allOutputFiles (after_step r l) = write_all (outputFiles r) (allOutputFiles l).
Proof. reflexivity. Qed.

Lemma allInputFiles_after_step r l :
  allInputFiles (after_step r l)
  = write_all (coerced (S (List.length (results_ l))) (outputFiles r)) (allInputFiles l).
Proof.
  unfold after_step, absorb, coerced. simpl.
  rewrite write_all_map, length_app, Nat.add_1_r. reflexivity.
Qed.

(** The batch, step by step: one result and one invocation per command, in
    order; every step is handed the pool as the steps before it left it. *)
Lemma steps_spec (cs : list Command) : forall l t,
  exists rs invs,
    snd (steps cs l t) = t ++ invs
    /\ results_ (fst (steps cs l t)) = results_ l ++ rs
    /\ List.length rs = List.length cs
    /\ map inv_command invs = map (map token_to_string) cs
    /\ allOutputFiles (fst (steps cs l t))
       = write_all (flat_map outputFiles rs) (allOutputFiles l)
    /\ (forall k inv, nth_error invs k = Some inv ->
          inv_inputFiles inv
          = values (write_all
                      (absorbed_from (S (List.length (results_ l))) (firstn k rs))
                      (allInputFiles l)))
    /\ (forall k x, nth_error rs k = Some x ->
          exists c inv, nth_error cs k = Some c /\ nth_error invs k = Some inv
                        /\ x = attempt (inv_inputFiles inv) c (t ++ firstn k invs)).
Proof.
  induction cs as [|c cs IH]; intros l t.
  - exists [], []. simpl. rewrite !app_nil_r. repeat split.
    + intros [|k] inv; discriminate.
    + intros [|k] x; discriminate.
  - simpl.
    set (inputs := values (allInputFiles l)).
    set (r := attempt inputs c t).
    set (inv0 := mkInvocation inputs (map token_to_string c)).
    destruct (IH (after_step r l) (t ++ [inv0]))
      as (rs & invs & Ht & Hrs & Hlen & Hcmds & Houts & Hins & Hal).
    exists (r :: rs), (inv0 :: invs).
    rewrite Ht, Hrs, Houts, results_after_step, allOutputFiles_after_step.
    rewrite <- !app_assoc. simpl.
    repeat split.
    + now rewrite Hlen.
    + now rewrite Hcmds.
    + now rewrite write_all_app.
    + intros [|k] inv Hk; simpl in Hk.
      * injection Hk as <-. reflexivity.
      * rewrite (Hins k inv Hk).
        rewrite allInputFiles_after_step, results_after_step.
        rewrite length_app, Nat.add_1_r.
        change (firstn (S k) (r :: rs)) with (r :: firstn k rs).
        change (absorbed_from (S (List.length (results_ l))) (r :: firstn k rs))
          with (coerced (S (List.length (results_ l))) (outputFiles r)
                ++ absorbed_from (S (S (List.length (results_ l)))) (firstn k rs)).
        now rewrite write_all_app.
    + intros [|k] x Hk; simpl in Hk.
      * injection Hk as <-. exists c, inv0. simpl. now rewrite app_nil_r.
      * destruct (Hal k x Hk) as (c' & inv & Hc & Hinv & Hx).
        exists c', inv. simpl. rewrite <- app_assoc in Hx. auto.
Qed.

Lemma named_pool_initial (fs : list MagickInputFile) :
  named_pool (allInputFiles (initial_locals fs)).
Proof. apply (named_pool_write_all fs), named_pool_nil. Qed.

(** What a batch returns and which invocations it makes. *)
Lemma execute_spec arg command fs cs t0 :
  asCommand_keeps_batch ->
  normalized arg command = Some (fs, cs) ->
  exists r invs,
    execute arg command t0 = (Returns r, t0 ++ invs)
    /\ commands r = cs
    /\ inputFiles (aggregate r) = fs
    /\ List.length (results r) = List.length cs
    /\ map inv_command invs = map (map token_to_string) cs
    /\ outputFiles (aggregate r)
       = values (write_all (flat_map outputFiles (results r)) [])
    /\ exitCode (aggregate r)
       = match find (fun x => negb (exitCode x =? 0)%Z) (results r) with
         | Some x => exitCode x
         | None => 0%Z
         end
    /\ (forall k inv, nth_error invs k = Some inv ->
          inv_inputFiles inv
          = values (write_all (fs ++ absorbed_before k (results r)) []))
    /\ (forall k x, nth_error (results r) k = Some x ->
          exists c inv, nth_error cs k = Some c /\ nth_error invs k = Some inv
                        /\ x = attempt (inv_inputFiles inv) c (t0 ++ firstn k invs)).
Proof.
  intros Hbatch Hn.
  destruct (steps_spec cs (initial_locals fs) t0)
    as (rs & invs & Ht & Hrs & Hlen & Hcmds & Houts & Hins & Hal).
  simpl in Hrs.
  exists (summary fs cs (fst (steps cs (initial_locals fs) t0))), invs.
  rewrite execute_normalized with (fs := fs) (cs := cs) by assumption.
  rewrite Ht. simpl. rewrite Hrs, Houts.
  repeat split; try assumption.
  intros k inv Hk. rewrite (Hins k inv Hk). unfold absorbed_before.
  now rewrite write_all_app.
Qed.

Lemma named_pool_before (fs : list MagickInputFile) (k : nat) (rs : list ExecuteResultOne) :
  named_pool (write_all (fs ++ absorbed_before k rs) []).
Proof. apply named_pool_write_all, named_pool_nil. Qed.




Lemma find_first_failure (rs : list ExecuteResultOne) :
  forall pre x post,
    rs = pre ++ x :: post ->
    (forall y, In y pre -> exitCode y = 0%Z) ->
    exitCode x <> 0%Z ->
    find (fun r => negb (exitCode r =? 0)%Z) rs = Some x.
Proof.
  intros pre x post -> Hpre Hx.
  induction pre as [|y pre IH]; simpl.
  - apply Z.eqb_neq in Hx. now rewrite Hx.
  - rewrite (Hpre y (or_introl eq_refl)). simpl. apply IH.
    intros z Hz. apply Hpre. now right.
Qed.

Lemma find_no_failure (rs : list ExecuteResultOne) :
  (forall y, In y rs -> exitCode y = 0%Z) ->
  find (fun r => negb (exitCode r =? 0)%Z) rs = None.
Proof.
  induction rs as [|y rs IH]; intros Hall; simpl; [reflexivity|].
  rewrite (Hall y (or_introl eq_refl)). simpl. apply IH.
  intros z Hz. apply Hall. now right.
Qed.
End ExecuteFacts.

(** The stand-in collaborators meet what is assumed of them. *)
Module DemoFacts.
Import Demo.

Lemma tokens_of_command_value (c : Command) : tokens_of (command_value c) = Some c.
Proof.
  unfold command_value, tokens_of.
  induction c as [|[s|n] c IH]; simpl; [reflexivity| |]; now rewrite IH.
Qed.

Lemma keeps_batch : asCommand_keeps_batch (E := externals).
Proof.
  intros c. simpl. unfold demo_asCommand.
  change (tokens_of (VArray [command_value c])) with (@None Command).
  cbv beta iota. cbn [flat_map]. now rewrite tokens_of_command_value.
Qed.


End DemoFacts.

(* ================================================================= *)
(** ** The definitions at work *)

Module Examples.
Import Demo ImageHome.

(** Array-index keys come first, in ascending order; a key that is written
    again stays where it was. *)
Example keys_in_enumeration_order :
  keys (fold_left (fun o k => assign k tt o) ["b.png"; "10"; "a.png"; "2"; "b.png"; "02"] [])
  = ["2"; "10"; "b.png"; "a.png"; "02"].
Proof. reflexivity. Qed.

(** What is written under [__proto__] is no own property: [Object.keys]
    and [values] pass over it, a read answers it, [delete] leaves it. *)
Example proto_is_no_own_property :
  let o := assign "__proto__" 1 (assign "a" 0 []) in
  keys o = ["a"] /\ values o = [0] /\ lookup "__proto__" o = Some 1
  /\ delete "__proto__" o = o.
Proof. repeat split. Qed.

(** The second step fails with exit code 2; all three steps run, and the
    third finds [a.png], which the first wrote. *)
Example three_steps_run :
  exists r invs,
    execute (E := externals) three_steps_config VUndefined [] = (Returns r, invs)
    /\ exitCode (aggregate r) = 2%Z
    /\ errors (aggregate r) = [None; Some "exit code: 2 stderr: no such file"; None]
    /\ map name (outputFiles (aggregate r)) = ["a.png"; "b.png"]
    /\ map (fun inv => map name (inv_inputFiles inv)) invs
       = [["photo.png"]; ["photo.png"; "a.png"]; ["photo.png"; "a.png"]].
Proof. eexists. eexists. split; [vm_compute; reflexivity|]. repeat split. Qed.

(** A fault of the primitive becomes a result. *)
Example fault_is_reported :
  executeOne (E := externals) throwing_config VUndefined []
  = (Returns {| stdout := []; stderr := []; outputFiles := []; exitCode := 1;
                command := ["throw"]; inputFiles := [];
                errors := [Some "Error: abort, exit code: 1, stderr: "] |},
     [mkInvocation [] ["throw"]]).
Proof. reflexivity. Qed.

(** No command at all: [command.map] raises before the [try]. *)
Example no_command_raises :
  executeOne (E := externals) (config_value None (batch [])) VUndefined []
  = (Throws (TypeError "Cannot read property 'map' of undefined"), []).
Proof. reflexivity. Qed.

(** An entry is reported under the default only after its coercion has
    completed and the continuation has run. *)
Example registered_once_resolved :
  let registered := run (E := externals) [Register (InputFile photo) (Some "x")]
                        createImageHome in
  let settled := run (E := externals) [Settle 0] registered in
  let resolved := run (E := externals) [Continuation 0] settled in
  isRegistered "x" true registered = VUndefined
  /\ isRegistered "x" true settled = VUndefined
  /\ isRegistered "x" true resolved = VBool true
  /\ isRegistered "y" true resolved = VUndefined.
Proof. repeat split. Qed.

(** [remove] hands back the promises of the names it deletes. *)
Example remove_some :
  let h := run (E := externals)
               [Register (InputFile photo) (Some "x");
                Register (InputFile photo) (Some "y");
                Register (InputFile photo) (Some "x")] createImageHome in
  keys (images h) = ["x"; "y"]
  /\ fst (remove ["x"; "z"] h) = [2]
  /\ keys (images (snd (remove ["x"; "z"] h))) = ["y"].
Proof. repeat split. Qed.
End Examples.

(* ================================================================= *)
(** ** The orchestrator: properties of [execute] *)

Section Threading.
Context {E : Externals}.



End Threading.




(** C2. A batch has one result per command, in the order of the commands,
    the result of step [k] being what the primitive answered to the
    invocation of step [k] (its exit code; 1 when the invocation faulted).
    The aggregate exit code is the exit code of the first of these results,
    scanning [results] front to back, that is not zero, and zero when every
    step succeeded; a later failure never replaces an earlier one. *)
Theorem execute_exitCode_first_failure {E : Externals} (arg command : Value)
    (fs : list MagickInputFile) (cs : list Command) (t0 : Trace) :
  asCommand_keeps_batch ->
  normalized arg command = Some (fs, cs) ->
  exists r invs,
    execute arg command t0 = (Returns r, t0 ++ invs)
    /\ List.length (results r) = List.length cs
    /\ map inv_command invs = map (map token_to_string) cs
    /\ (forall k x, nth_error (results r) k = Some x ->
          exists c inv, nth_error cs k = Some c /\ nth_error invs k = Some inv
                        /\ x = attempt (inv_inputFiles inv) c (t0 ++ firstn k invs))
    /\ first_failure_wins r.
Proof.
  intros Hbatch Hn.
  destruct (execute_spec arg command fs cs t0 Hbatch Hn)
    as (r & invs & Hex & _ & _ & Hlen & Hcmds & _ & Hcode & _ & Hal).
  exists r, invs. split; [exact Hex|]. split; [exact Hlen|].
  split; [exact Hcmds|]. split; [exact Hal|]. split.
  - intros Hall. rewrite Hcode. now rewrite find_no_failure.
  - intros pre x post Hres Hpre Hx. rewrite Hcode.
    now rewrite (find_first_failure _ pre x post Hres Hpre Hx).
Qed.

Lemma execute_exitCode_first_failure_witness :
  asCommand_keeps_batch (E := Demo.externals)
  /\ normalized (E := Demo.externals) Demo.three_steps_config VUndefined
     = Some ([Demo.photo], Demo.three_steps)
  /\ exists r invs,
       execute (E := Demo.externals) Demo.three_steps_config VUndefined []
       = (Returns r, [] ++ invs)
       /\ List.length (results r) = List.length Demo.three_steps
       /\ map inv_command invs = map (map token_to_string) Demo.three_steps
       /\ (forall k x, nth_error (results r) k = Some x ->
             exists c inv, nth_error Demo.three_steps k = Some c
                           /\ nth_error invs k = Some inv
                           /\ x = attempt (E := Demo.externals)
                                     (inv_inputFiles inv) c ([] ++ firstn k invs))
       /\ first_failure_wins r.
Proof.
  split; [exact DemoFacts.keeps_batch|]. split; [reflexivity|].
  apply (@execute_exitCode_first_failure Demo.externals Demo.three_steps_config
           VUndefined [Demo.photo] Demo.three_steps []);
    [exact DemoFacts.keeps_batch | reflexivity].
Defined.

(** C4, as stated: once a step fails the remaining steps are not run and
    [results] is shorter than the command list.  The batch [fail] then
    [convert] runs both steps. *)
Lemma execute_halts_after_failure_counterexample :
  exists r invs,
    execute (E := Demo.externals) Demo.failure_first_config VUndefined []
    = (Returns r, invs)
    /\ List.length (commands r) = 2
    /\ ~ halts_after_failure r invs.
Proof.
  eexists. eexists. split; [vm_compute; reflexivity|]. split; [reflexivity|].
  intros Hhalt.
  destruct (Hhalt 0 _ eq_refl) as [Hres _]; [simpl; discriminate|].
  simpl in Hres. discriminate.
Qed.

(** C4, amended. Every step of the normalized command list is run, whether
    or not an earlier step failed: one invocation of the primitive and one
    entry of [results] per command, in the order of the commands, so that a
    step with a non-zero exit code is followed by the invocation and the
    result of every later step. *)
Theorem execute_runs_every_step {E : Externals} (arg command : Value)
    (fs : list MagickInputFile) (cs : list Command) (t0 : Trace) :
  asCommand_keeps_batch ->
  normalized arg command = Some (fs, cs) ->
  exists r invs,
    execute arg command t0 = (Returns r, t0 ++ invs)
    /\ commands r = cs
    /\ List.length (results r) = List.length cs
    /\ map inv_command invs = map (map token_to_string) cs
    /\ (forall k x, nth_error (results r) k = Some x ->
          exists c inv, nth_error cs k = Some c /\ nth_error invs k = Some inv
                        /\ x = attempt (inv_inputFiles inv) c (t0 ++ firstn k invs))
    /\ (forall k x, nth_error (results r) k = Some x -> exitCode x <> 0%Z ->
          forall j, k < j < List.length cs ->
            exists inv y, nth_error invs j = Some inv /\ nth_error (results r) j = Some y).
Proof.
  intros Hbatch Hn.
  destruct (execute_spec arg command fs cs t0 Hbatch Hn)
    as (r & invs & Hex & Hcs & _ & Hlen & Hcmds & _ & _ & _ & Hal).
  exists r, invs. repeat split; try assumption.
  intros k x _ _ j [_ Hj].
  destruct (nth_error (results r) j) as [y|] eqn:Hy.
  - destruct (Hal j y Hy) as (c & inv & _ & Hinv & _). now exists inv, y.
  - apply nth_error_None in Hy. lia.
Qed.

Lemma execute_runs_every_step_witness :
  asCommand_keeps_batch (E := Demo.externals)
  /\ normalized (E := Demo.externals) Demo.failure_first_config VUndefined
     = Some ([Demo.photo], Demo.failure_first)
  /\ exists r invs,
       execute (E := Demo.externals) Demo.failure_first_config VUndefined []
       = (Returns r, [] ++ invs)
       /\ commands r = Demo.failure_first
       /\ List.length (results r) = List.length Demo.failure_first
       /\ map inv_command invs = map (map token_to_string) Demo.failure_first
       /\ (forall k x, nth_error (results r) k = Some x ->
             exists c inv, nth_error Demo.failure_first k = Some c
                           /\ nth_error invs k = Some inv
                           /\ x = attempt (E := Demo.externals)
                                     (inv_inputFiles inv) c ([] ++ firstn k invs))
       /\ (forall k x, nth_error (results r) k = Some x -> exitCode x <> 0%Z ->
             forall j, k < j < List.length Demo.failure_first ->
               exists inv y, nth_error invs j = Some inv
                             /\ nth_error (results r) j = Some y).
Proof.
  split; [exact DemoFacts.keeps_batch|]. split; [reflexivity|].
  apply (@execute_runs_every_step Demo.externals Demo.failure_first_config
           VUndefined [Demo.photo] Demo.failure_first []);
    [exact DemoFacts.keeps_batch | reflexivity].
Defined.

(** C10. The list of input files handed to each step, and the aggregate
    [outputFiles] of the result, hold at most one file of each name. *)
Theorem execute_one_file_per_name {E : Externals} (arg command : Value)
    (fs : list MagickInputFile) (cs : list Command) (t0 : Trace) :
  asCommand_keeps_batch ->
  normalized arg command = Some (fs, cs) ->
  exists r invs,
    execute arg command t0 = (Returns r, t0 ++ invs)
    /\ List.length invs = List.length cs
    /\ Forall (fun inv => NoDup (map name (inv_inputFiles inv))) invs
    /\ NoDup (map name (outputFiles (aggregate r))).
Proof.
  intros Hbatch Hn.
  destruct (execute_spec arg command fs cs t0 Hbatch Hn)
    as (r & invs & Hex & _ & _ & _ & Hcmds & Houts & _ & Hins & _).
  exists r, invs. split; [exact Hex|]. split.
  { rewrite <- (length_map inv_command), Hcmds. apply length_map. }
  split.
  - apply Forall_forall. intros inv Hin.
    apply In_nth_error in Hin as [k Hk]. rewrite (Hins k inv Hk).
    apply NoDup_names_values, named_pool_before.
  - rewrite Houts. apply NoDup_names_values, named_pool_write_all, named_pool_nil.
Qed.

Lemma execute_one_file_per_name_witness :
  asCommand_keeps_batch (E := Demo.externals)
  /\ normalized (E := Demo.externals) Demo.same_names_config VUndefined
     = Some ([Demo.photo; mkInputFile "photo.png" [Byte.x01]],
             [Demo.convert "photo.png" "a.png"; Demo.convert "photo.png" "a.png"])
  /\ exists r invs,
       execute (E := Demo.externals) Demo.same_names_config VUndefined []
       = (Returns r, [] ++ invs)
       /\ List.length invs = 2
       /\ Forall (fun inv => NoDup (map name (inv_inputFiles inv))) invs
       /\ NoDup (map name (outputFiles (aggregate r))).
Proof.
  split; [exact DemoFacts.keeps_batch|]. split; [reflexivity|].
  apply (@execute_one_file_per_name Demo.externals Demo.same_names_config VUndefined
           [Demo.photo; mkInputFile "photo.png" [Byte.x01]]
           [Demo.convert "photo.png" "a.png"; Demo.convert "photo.png" "a.png"] []);
    [exact DemoFacts.keeps_batch | reflexivity].
Defined.

(* ================================================================= *)
(** ** The orchestrator: properties of [executeOne] *)

(** C3. On arguments whose commands normalize to at least one command,
    [executeOne] returns a result and raises nothing.  A non-zero exit code
    of the primitive gives one message with that code and the joined
    [stderr]; a fault of the primitive gives one message with the thrown
    error, the exit code 1 and the empty joined [stderr] of the default
    result, which has no output; success gives [[undefined]]. *)
Theorem executeOne_always_returns {E : Externals} (configOrCommand execCommand : Value)
    (fs : list MagickInputFile) (c : Command) (rest : list Command) (t : Trace) :
  normalized configOrCommand execCommand = Some (fs, c :: rest) ->
  exists r,
    executeOne configOrCommand execCommand t
    = (Returns r, t ++ [mkInvocation fs (map token_to_string c)])
    /\ (forall result,
          call t fs (map token_to_string c) = Completed result ->
          cr_exitCode result <> 0%Z ->
          r = with_errors result
                [Some ("exit code: " ++ number_to_string (cr_exitCode result)
                       ++ " stderr: " ++ join newline (cr_stderr result))%string])
    /\ (forall result,
          call t fs (map token_to_string c) = Completed result ->
          cr_exitCode result = 0%Z ->
          r = with_errors result [None])
    /\ (forall error,
          call t fs (map token_to_string c) = Faulted error ->
          exitCode r = 1%Z /\ outputFiles r = [] /\ stdout r = [] /\ stderr r = []
          /\ command r = map token_to_string c /\ inputFiles r = fs
          /\ errors r = [Some (thrown_to_string error ++ ", exit code: "
                               ++ number_to_string 1 ++ ", stderr: "
                               ++ join newline [])%string]).
Proof.
  intros Hn. exists (attempt fs c t).
  split; [now apply executeOne_normalized with (rest := rest)|].
  unfold attempt. split; [|split].
  - intros result Hcall Hx. rewrite Hcall. apply Z.eqb_neq in Hx. now rewrite Hx.
  - intros result Hcall Hx. rewrite Hcall, Hx. reflexivity.
  - intros error Hcall. rewrite Hcall. repeat split.
Qed.

Lemma executeOne_always_returns_witness :
  normalized (E := Demo.externals) Demo.throwing_config VUndefined
  = Some ([], [[TString "throw"]])
  /\ exists r,
       executeOne (E := Demo.externals) Demo.throwing_config VUndefined []
       = (Returns r, [] ++ [mkInvocation [] ["throw"]])
       /\ errors r = [Some "Error: abort, exit code: 1, stderr: "]
       /\ exitCode r = 1%Z.
Proof.
  split; [reflexivity|].
  destruct (@executeOne_always_returns Demo.externals Demo.throwing_config VUndefined
              [] [TString "throw"] [] [] eq_refl) as (r & Hex & _ & _ & Hfault).
  exists r. split; [exact Hex|].
  destruct (Hfault (Error "abort") eq_refl) as (Hcode & _ & _ & _ & _ & _ & Herr).
  split; [exact Herr | exact Hcode].
Defined.

(* ================================================================= *)
(** ** The config normalizer: properties of [asExecuteConfig] *)

(** C5, as stated: an array of files with a command argument is returned as
    [{ inputFiles, commands }].  With the empty string as the command,
    [asExecuteConfig] throws instead. *)
Lemma asExecuteConfig_files_counterexample :
  isArray (files_value [Demo.photo]) = true
  /\ isInputFile (Externals := Demo.externals)
       (first_element (files_value [Demo.photo])) = true
  /\ VString "" <> VUndefined
  /\ asExecuteConfig (E := Demo.externals) (files_value [Demo.photo]) (VString "")
     = inl (Error "No command given")
  /\ asExecuteConfig (E := Demo.externals) (files_value [Demo.photo]) (VString "")
     <> inr (VObject [("inputFiles", files_value [Demo.photo]);
                      ("commands", VString "")]).
Proof.
  repeat split; try discriminate.
Qed.

(** C5, amended. For an array whose first element is a file,
    [asExecuteConfig] throws [Error('No command given')] when the command
    argument is absent or falsy, and does so before [execute] or
    [executeOne] invoke the primitive; with a truthy command it returns
    [{ inputFiles: the array, commands: the command }], whatever the
    command is. *)
Theorem asExecuteConfig_files {E : Externals} (xs : list Value) (command : Value)
    (t : Trace) :
  isInputFile (first_element (VArray xs)) = true ->
  asExecuteConfig (VArray xs) VUndefined = inl (Error "No command given")
  /\ (truthy command = false ->
      asExecuteConfig (VArray xs) command = inl (Error "No command given")
      /\ execute (VArray xs) command t = (Throws (Error "No command given"), t)
      /\ executeOne (VArray xs) command t = (Throws (Error "No command given"), t))
  /\ (truthy command = true ->
      asExecuteConfig (VArray xs) command
      = inr (VObject [("inputFiles", VArray xs); ("commands", command)])).
Proof.
  intros Hfile.
  assert (Hfalsy : forall c, truthy c = false ->
            asExecuteConfig (VArray xs) c = inl (Error "No command given")).
  { intros c Hc. unfold asExecuteConfig. simpl. simpl in Hfile.
    now rewrite Hfile, Hc. }
  split; [now apply Hfalsy|]. split.
  - intros Hc. split; [now apply Hfalsy|].
    unfold execute, executeOne, bind, sync. now rewrite (Hfalsy command Hc).
  - intros Hc. unfold asExecuteConfig. simpl. simpl in Hfile.
    now rewrite Hfile, Hc.
Qed.

Lemma asExecuteConfig_files_witness :
  isInputFile (Externals := Demo.externals) (first_element (VArray [VFile Demo.photo]))
  = true
  /\ asExecuteConfig (E := Demo.externals) (VArray [VFile Demo.photo]) VUndefined
     = inl (Error "No command given")
  /\ execute (E := Demo.externals) (VArray [VFile Demo.photo]) (VString "") []
     = (Throws (Error "No command given"), [])
  /\ asExecuteConfig (E := Demo.externals) (VArray [VFile Demo.photo])
       (VString "identify photo.png")
     = inr (VObject [("inputFiles", VArray [VFile Demo.photo]);
                     ("commands", VString "identify photo.png")]).
Proof.
  split; [reflexivity|].
  destruct (@asExecuteConfig_files Demo.externals [VFile Demo.photo] (VString "") []
              eq_refl) as (Hnone & Hfalsy & _).
  destruct (@asExecuteConfig_files Demo.externals [VFile Demo.photo]
              (VString "identify photo.png") [] eq_refl) as (_ & _ & Htruthy).
  split; [exact Hnone|]. split.
  - exact (proj1 (proj2 (Hfalsy eq_refl))).
  - exact (Htruthy eq_refl).
Defined.

(** C9, as stated: an object that carries the key [commands] is returned as
    the configuration.  The configuration [{ inputFiles: [photo],
    commands: '' }] carries the key and is wrapped as a command instead. *)
Lemma asExecuteConfig_commands_key_counterexample :
  has_key "commands" Demo.empty_command_config = true
  /\ isExecuteConfig Demo.empty_command_config = inr false
  /\ asExecuteConfig (E := Demo.externals) Demo.empty_command_config VUndefined
     = inr (VObject [("inputFiles", VArray []);
                     ("commands", Demo.empty_command_config)])
  /\ asExecuteConfig (E := Demo.externals) Demo.empty_command_config VUndefined
     <> inr Demo.empty_command_config.
Proof.
  repeat split; try discriminate.
Qed.

(** C9, amended. The truthiness of the property [commands] is the sole
    discriminator: a value other than [undefined] and [null] is an
    [ExecuteConfig] exactly when it is an object whose [commands] is truthy,
    and is then returned as the configuration; every other value, an object
    with a falsy [commands] included, is treated as one of the other call
    shapes. *)
Theorem asExecuteConfig_discriminator {E : Externals} (arg command : Value) :
  arg <> VUndefined ->
  arg <> VNull ->
  isExecuteConfig arg = inr (has_truthy_commands arg)
  /\ (has_truthy_commands arg = true -> asExecuteConfig arg command = inr arg)
  /\ (has_truthy_commands arg = false ->
      asExecuteConfig arg command
      = if isArray arg && isInputFile (first_element arg)
        then if truthy command
             then inr (VObject [("inputFiles", arg); ("commands", command)])
             else inl (Error "No command given")
        else inr (VObject [("inputFiles", VArray []); ("commands", arg)])).
Proof.
  intros Hu Hn.
  assert (His : isExecuteConfig arg = inr (has_truthy_commands arg)).
  { destruct arg; try reflexivity; congruence. }
  split; [exact His|]. unfold asExecuteConfig. rewrite His.
  split; intros ->; [reflexivity|].
  destruct (isArray arg && isInputFile (first_element arg)); [|reflexivity].
  now destruct (truthy command).
Qed.

Lemma asExecuteConfig_discriminator_witness :
  Demo.three_steps_config <> VUndefined
  /\ Demo.three_steps_config <> VNull
  /\ isExecuteConfig Demo.three_steps_config = inr true
  /\ asExecuteConfig (E := Demo.externals) Demo.three_steps_config VUndefined
     = inr Demo.three_steps_config.
Proof.
  split; [discriminate|]. split; [discriminate|].
  destruct (@asExecuteConfig_discriminator Demo.externals Demo.three_steps_config
              VUndefined ltac:(discriminate) ltac:(discriminate))
    as (His & Hyes & _).
  split; [exact His | exact (Hyes eq_refl)].
Defined.

(* ================================================================= *)
(** ** The registry: properties of [ImageHomeImpl] *)

Module ImageHomeFacts.
Import ImageHome.

Lemma images_register file name_ h :
  images (snd (register file name_ h))
  = assign (registered_name (file, name_)) (List.length (promises h)) (images h).
Proof. reflexivity. Qed.

Lemma promises_register file name_ h :
  promises (snd (register file name_ h)) = promises h ++ [pending file].
Proof. reflexivity. Qed.

Lemma register_all_cons (r : Registration) (regs : list Registration) h :
  register_all (r :: regs) h = register_all regs (snd (register (fst r) (snd r) h)).
Proof. reflexivity. Qed.

Lemma promises_register_all (regs : list Registration) : forall h,
  promises (register_all regs h) = promises h ++ map (fun r => pending (fst r)) regs.
Proof.
  induction regs as [|r regs IH]; intros h.
  - simpl. now rewrite app_nil_r.
  - rewrite register_all_cons, IH, (promises_register (fst r) (snd r) h).
    now rewrite <- app_assoc.
Qed.

Lemma NoDup_slots_register_all (regs : list Registration) : forall h,
  NoDup (slots (images h)) -> NoDup (slots (images (register_all regs h))).
Proof.
  induction regs as [|r regs IH]; intros h Hnd; [exact Hnd|].
  rewrite register_all_cons. apply IH.
  rewrite (images_register (fst r) (snd r) h). now apply NoDup_slots_assign.
Qed.

(** After the calls, a name answers with the promise of the last call that
    registered it, and as before the calls when none did. *)
Lemma get_register_all (n : string) (regs : list Registration) : forall h,
  get n (register_all regs h)
  = match last_registration (List.length (promises h)) n regs with
    | Some p => Some p
    | None => get n h
    end.
Proof.
  induction regs as [|r regs IH]; intros h; [reflexivity|].
  rewrite register_all_cons, IH, (promises_register (fst r) (snd r) h).
  rewrite length_app, Nat.add_1_r. cbn [last_registration].
  destruct (last_registration (S (List.length (promises h))) n regs);
    [reflexivity|].
  unfold get. rewrite (images_register (fst r) (snd r) h).
  replace (registered_name (fst r, snd r)) with (registered_name r)
    by now destruct r.
  destruct (String.eqb_spec (registered_name r) n) as [<-|Hne].
  - apply lookup_assign_eq.
  - apply lookup_assign_ne. congruence.
Qed.

Lemma NoDup_slots_remove names h :
  NoDup (slots (images h)) -> NoDup (slots (images (snd (remove names h)))).
Proof.
  intros Hnd. unfold remove.
  assert (Hfold : forall ks (acc : list PromiseRef * JsObject PromiseRef),
             NoDup (slots (snd acc)) ->
             NoDup (slots (snd (fold_left
               (fun '(result, imgs) name_ =>
                  if existsb (String.eqb name_) names
                  then (match lookup name_ imgs with
                        | Some p => result ++ [p]
                        | None => result
                        end, delete name_ imgs)
                  else (result, imgs)) ks acc)))).
  { induction ks as [|k ks IH]; intros [result imgs] Hacc; [exact Hacc|].
    simpl. apply IH. destruct (existsb (String.eqb k) names); simpl; [|exact Hacc].
    now apply NoDup_slots_delete. }
  specialize (Hfold (keys (images h)) ([], images h) Hnd).
  destruct (fold_left _ (keys (images h)) ([], images h)) as [result images'].
  exact Hfold.
Qed.

Section WithExternals.
Context {E : Externals}.

(** The bulk registration is one call of [register] per built-in image. *)
Lemma bulk_registration (imgs : list MagickFile) : forall h,
  fold_left (fun h img => snd (register img None h)) imgs h
  = register_all (map (fun img => (img, None)) imgs) h.
Proof.
  induction imgs as [|img imgs IH]; intros h; [reflexivity|].
  simpl. rewrite IH. reflexivity.
Qed.

Lemma registerBuiltInImages_register_all h :
  registerBuiltInImages h
  = register_all (map (fun img => (img, None)) getBuiltInImages) h.
Proof. apply bulk_registration. Qed.

Lemma promises_registerBuiltInImages h :
  promises (registerBuiltInImages h) = promises h ++ map pending getBuiltInImages.
Proof.
  now rewrite registerBuiltInImages_register_all, promises_register_all, map_map.
Qed.

(** A call that awaits its promises changes at most the flag. *)
Lemma resume_Mapping awaited h :
  images (snd (resume (Mapping awaited) h)) = images h
  /\ promises (snd (resume (Mapping awaited) h)) = promises h.
Proof.
  cbn [resume]. now destruct (forallb (fun p => is_resolved p h) awaited).
Qed.

Lemma builtInImagesAdded_register_all (regs : list Registration) : forall h,
  builtInImagesAdded (register_all regs h) = builtInImagesAdded h.
Proof.
  induction regs as [|r regs IH]; intros h; [reflexivity|].
  rewrite register_all_cons, IH. reflexivity.
Qed.

(** Nothing unsets the flag. *)
Lemma builtInImagesAdded_run (events : list Event) : forall h,
  builtInImagesAdded h = true -> builtInImagesAdded (run events h) = true.
Proof.
  induction events as [|e events IH]; intros h Hh; [exact Hh|].
  apply IH. destruct e as [file name_|names| |awaited|p|p]; cbn [occur].
  - exact Hh.
  - unfold remove.
    destruct (fold_left _ (keys (images h)) ([], images h)) as [result images'].
    exact Hh.
  - cbn [resume snd].
    now rewrite registerBuiltInImages_register_all, builtInImagesAdded_register_all.
  - cbn [resume]. now destruct (forallb (fun p => is_resolved p h) awaited).
  - exact Hh.
  - exact Hh.
Qed.

(** No key of [images] occurs twice, whatever happened to the instance. *)
Lemma NoDup_slots_run (events : list Event) : forall h,
  NoDup (slots (images h)) -> NoDup (slots (images (run events h))).
Proof.
  induction events as [|e events IH]; intros h Hnd; [exact Hnd|].
  apply IH. destruct e as [file name_|names| |awaited|p|p]; cbn [occur].
  - rewrite (images_register file name_ h). now apply NoDup_slots_assign.
  - now apply NoDup_slots_remove.
  - cbn [resume snd]. rewrite registerBuiltInImages_register_all.
    now apply NoDup_slots_register_all.
  - now rewrite (proj1 (resume_Mapping awaited h)).
  - exact Hnd.
  - exact Hnd.
Qed.

Lemma Forall_update_nth {A : Type} (P : A -> Prop) (f : A -> A) (l : list A) :
  (forall x, P x -> P (f x)) ->
  forall n, Forall P l -> Forall P (update_nth n f l).
Proof.
  intros Hf. induction l as [|x l IH]; intros n Hall; [destruct n; constructor|].
  inversion Hall as [|? ? Hx Hl]; subst.
  destruct n as [|n]; simpl; constructor; auto.
Qed.

Lemma resolved_after_fulfilment_register_all (regs : list Registration) h :
  resolved_after_fulfilment h -> resolved_after_fulfilment (register_all regs h).
Proof.
  unfold resolved_after_fulfilment. rewrite promises_register_all.
  intros Hh. apply Forall_app. split; [exact Hh|].
  apply Forall_forall. intros cell Hin.
  apply in_map_iff in Hin as [r [<- _]]. discriminate.
Qed.

(** Whatever happened to an instance, a promise whose [resolved] is set
    is fulfilled. *)
Lemma resolved_after_fulfilment_run (events : list Event) : forall h,
  resolved_after_fulfilment h -> resolved_after_fulfilment (run events h).
Proof.
  induction events as [|e events IH]; intros h Hh; [exact Hh|].
  apply IH. destruct e as [file name_|names| |awaited|p|p]; cbn [occur].
  - apply (resolved_after_fulfilment_register_all [(file, name_)] h Hh).
  - unfold remove.
    destruct (fold_left _ (keys (images h)) ([], images h)) as [result images'].
    exact Hh.
  - cbn [resume snd]. rewrite registerBuiltInImages_register_all.
    apply (resolved_after_fulfilment_register_all _ h Hh).
  - unfold resolved_after_fulfilment.
    now rewrite (proj2 (resume_Mapping awaited h)).
  - apply Forall_update_nth; [|exact Hh].
    intros cell Hcell. destruct (state cell) eqn:Hst; simpl.
    + intros Hres. destruct (Hcell Hres) as [file Hfile]. congruence.
    + now rewrite Hst.
  - apply Forall_update_nth; [|exact Hh].
    intros cell Hcell. destruct (state cell) eqn:Hst; simpl.
    + now rewrite Hst.
    + intros _. now exists file.
Qed.

(** With [andReady] left at its default, a name is reported as registered
    only if it has an entry whose coercion has completed. *)
Lemma isRegistered_default_sound (events : list Event) (n : string) :
  let h := run events createImageHome in
  truthy (isRegistered n true h) = true ->
  exists p cell file,
    get n h = Some p /\ nth_error (promises h) p = Some cell
    /\ state cell = Fulfilled file.
Proof.
  intros h. unfold isRegistered, get, resolved_property.
  destruct (lookup n (images h)) as [p|]; [|discriminate].
  destruct (nth_error (promises h) p) as [cell|] eqn:Hcell; [|discriminate].
  destruct (resolved cell) eqn:Hres; [|discriminate].
  intros _.
  assert (Hinv : resolved_after_fulfilment h).
  { apply resolved_after_fulfilment_run. constructor. }
  unfold resolved_after_fulfilment in Hinv. rewrite Forall_forall in Hinv.
  destruct (Hinv cell (nth_error_In _ _ Hcell) Hres) as [file Hfile].
  now exists p, cell, file.
Qed.

(** A name that was just registered is pending: under the default it is not
    reported as registered. *)
Lemma isRegistered_default_pending file (n : string) h :
  isRegistered n true (snd (register file (Some n) h)) = VUndefined.
Proof.
  unfold isRegistered, resolved_property.
  rewrite (images_register file (Some n) h), (promises_register file (Some n) h).
  change (registered_name (file, Some n)) with n.
  rewrite lookup_assign_eq, nth_error_app2, Nat.sub_diag; [reflexivity|].
  apply Nat.le_refl.
Qed.

(** A name without an entry is not reported as registered. *)
Lemma isRegistered_absent (n : string) (andReady : bool) h :
  get n h = None -> isRegistered n andReady h = VUndefined.
Proof. unfold isRegistered, get. now intros ->. Qed.
End WithExternals.
End ImageHomeFacts.

Import ImageHome ImageHomeFacts.

(** C6. [isRegistered(name, andReady)] is to report a pending entry as
    registered when [andReady] is [false].  The code answers [false] for
    every entry when [andReady] is [false]: for the name [x], registered a
    moment ago and still pending, [isRegistered('x', false)] is [false]. *)
Theorem isRegistered_not_ready_never_registered :
  (forall (n : string) (h : ImageHomeImpl), truthy (isRegistered n false h) = false)
  /\ (let h := snd (register (InputFile Demo.photo) (Some "x") createImageHome) in
      get "x" h = Some 0
      /\ nth_error (promises h) 0 = Some (pending (InputFile Demo.photo))
      /\ isRegistered "x" false h = VBool false
      /\ isRegistered "x" true h = VUndefined).
Proof.
  split.
  - intros n h. unfold isRegistered. now destruct (lookup n (images h)).
  - repeat split.
Qed.

(** C7. [register] stores a pending promise under the name at once and
    replaces the entry that the name had; after any calls of [register], on
    any instance, no name has two entries, and every name answers with the
    promise of the last call that registered it. *)
Theorem register_last_write_wins {E : Externals} (events : list Event)
    (regs : list Registration) :
  let h0 := run events createImageHome in
  let h := register_all regs h0 in
  NoDup (keys (images h))
  /\ (forall n, get n h
                = match last_registration (List.length (promises h0)) n regs with
                  | Some p => Some p
                  | None => get n h0
                  end)
  /\ (forall i r, nth_error regs i = Some r ->
        nth_error (promises h) (List.length (promises h0) + i) = Some (pending (fst r)))
  /\ (forall file name_,
        let n := registered_name (file, name_) in
        let p := fst (register file name_ h) in
        let h' := snd (register file name_ h) in
        get n h' = Some p
        /\ nth_error (promises h') p = Some (pending file)
        /\ (forall n', n' <> n -> get n' h' = get n' h)).
Proof.
  intros h0 h. split; [|split; [|split]].
  - apply NoDup_keys, NoDup_slots_register_all, NoDup_slots_run. constructor.
  - intros n. apply get_register_all.
  - intros i r Hi. unfold h. rewrite promises_register_all.
    rewrite nth_error_app2 by lia.
    replace (List.length (promises h0) + i - List.length (promises h0)) with i by lia.
    unfold Registration in *. rewrite nth_error_map, Hi. reflexivity.
  - intros file name_ n p h'. unfold h', p, get.
    rewrite (images_register file name_ h), (promises_register file name_ h).
    fold n. split; [apply lookup_assign_eq|]. split.
    + cbn [fst register]. rewrite nth_error_app2, Nat.sub_diag; [reflexivity|].
      apply Nat.le_refl.
    + intros n' Hne. now apply lookup_assign_ne.
Qed.

(** C8. A call of [addBuiltInImages] on an instance whose flag is not set
    registers every built-in image, once each and in order, and leaves the
    flag unset while it awaits the promises of these registrations; whatever
    happens to the instance meanwhile, once these promises are resolved the
    call sets the flag and changes nothing else, and returns.  Whatever
    happens then, a second call finds the flag set and returns at once: it
    registers nothing and leaves the instance as it is, as does every call
    on an instance whose flag is set. *)
Theorem addBuiltInImages_registers_once {E : Externals} (h : ImageHomeImpl)
    (between after : list Event) :
  let builtIns := map (fun img => (img, @None string)) getBuiltInImages in
  let awaited := seq (List.length (promises h)) (List.length getBuiltInImages) in
  let h1 := snd (resume (addBuiltInImages h) h) in
  let h2 := run between h1 in
  let h3 := snd (resume (fst (resume (addBuiltInImages h) h)) h2) in
  let h4 := run after h3 in
  builtInImagesAdded h = false ->
  forallb (fun p => is_resolved p h2) awaited = true ->
  resume (addBuiltInImages h) h = (Mapping awaited, register_all builtIns h)
  /\ images h1 = images (register_all builtIns h)
  /\ promises h1 = promises h ++ map pending getBuiltInImages
  /\ builtInImagesAdded h1 = false
  /\ (forall n, get n h1
                = match last_registration (List.length (promises h)) n builtIns with
                  | Some p => Some p
                  | None => get n h
                  end)
  /\ resume (Mapping awaited) h2 = (Returned, h3)
  /\ builtInImagesAdded h3 = true
  /\ images h3 = images h2
  /\ promises h3 = promises h2
  /\ addBuiltInImages h4 = Returned
  /\ resume (addBuiltInImages h4) h4 = (Returned, h4)
  /\ (forall h', builtInImagesAdded h' = true ->
                 resume (addBuiltInImages h') h' = (Returned, h')).
Proof.
  intros builtIns awaited h1 h2 h3 h4 Hflag Hres.
  assert (Hfirst : resume (addBuiltInImages h) h
                   = (Mapping awaited, register_all builtIns h)).
  { unfold addBuiltInImages. rewrite Hflag. cbn [negb resume].
    now rewrite registerBuiltInImages_register_all. }
  assert (Hh1 : h1 = register_all builtIns h) by (unfold h1; now rewrite Hfirst).
  assert (Hh3 : h3 = setBuiltInImagesAdded h2).
  { unfold h3. rewrite Hfirst. cbn [fst resume]. now rewrite Hres. }
  assert (Hset : forall h', builtInImagesAdded h' = true ->
                            resume (addBuiltInImages h') h' = (Returned, h')).
  { intros h' Hh'. unfold addBuiltInImages. now rewrite Hh'. }
  assert (Hflag4 : builtInImagesAdded h4 = true).
  { unfold h4. apply builtInImagesAdded_run. now rewrite Hh3. }
  split; [exact Hfirst|]. split; [now rewrite Hh1|].
  split; [rewrite Hh1, promises_register_all; unfold builtIns; now rewrite map_map|].
  split; [rewrite Hh1, builtInImagesAdded_register_all; exact Hflag|].
  split; [intros n; rewrite Hh1; apply get_register_all|].
  split; [cbn [resume]; now rewrite Hres, Hh3|].
  split; [now rewrite Hh3|]. split; [now rewrite Hh3|]. split; [now rewrite Hh3|].
  split; [unfold addBuiltInImages; now rewrite Hflag4|].
  split; [now apply Hset|exact Hset].
Qed.

Lemma addBuiltInImages_registers_once_witness :
  let h := createImageHome in
  let between := [Settle 0; Continuation 0; Settle 1; Continuation 1] in
  let after := [Register (InputFile Demo.photo) None] in
  let h2 := run (E := Demo.externals) between
                (snd (resume (E := Demo.externals) (addBuiltInImages h) h)) in
  let h3 := snd (resume (E := Demo.externals)
                        (fst (resume (E := Demo.externals) (addBuiltInImages h) h)) h2) in
  let h4 := run (E := Demo.externals) after h3 in
  builtInImagesAdded h = false
  /\ forallb (fun p => is_resolved p h2) [0; 1] = true
  /\ keys (images h3) = ["rose:"; "logo:"]
  /\ builtInImagesAdded h3 = true
  /\ resume (E := Demo.externals) (addBuiltInImages h4) h4 = (Returned, h4).
Proof.
  split; [reflexivity|]. split; [reflexivity|]. split; [reflexivity|].
  split; [reflexivity|].
  apply (@addBuiltInImages_registers_once Demo.externals createImageHome
           [Settle 0; Continuation 0; Settle 1; Continuation 1]
           [Register (InputFile Demo.photo) None]);
    reflexivity.
Defined.

(* ================================================================= *)
(** ** More on the config normalizer *)

Section NormalizerFacts.
Context {E : Externals}.

(** A value with a truthy [commands] is an object. *)
Lemma isExecuteConfig_true_object (arg : Value) :
  isExecuteConfig arg = inr true -> exists props, arg = VObject props.
Proof.
  destruct arg; try discriminate. intros _. now exists props.
Qed.

Lemma isExecuteConfig_truthy_commands (arg : Value) :
  isExecuteConfig arg = inr true -> has_truthy_commands arg = true.
Proof.
  destruct arg; try discriminate. unfold isExecuteConfig. simpl. now intros [= ->].
Qed.

(** What [asExecuteConfig] returns is an object whose [commands] and
    [inputFiles] can be read. *)
Lemma asExecuteConfig_object (arg command config : Value) :
  asExecuteConfig arg command = inr config -> exists props, config = VObject props.
Proof.
  unfold asExecuteConfig.
  destruct (isExecuteConfig arg) as [e|[|]] eqn:His; [discriminate| |].
  - intros [= <-]. now apply isExecuteConfig_true_object.
  - destruct (isArray arg && isInputFile (first_element arg)).
    + destruct (negb (truthy command)); [discriminate|]. intros [= <-]. eauto.
    + intros [= <-]. eauto.
Qed.

(** The configuration returned for a truthy first argument has a truthy
    [commands]. *)
Lemma asExecuteConfig_truthy_commands (arg command config : Value) :
  asExecuteConfig arg command = inr config ->
  truthy arg = true ->
  has_truthy_commands config = true.
Proof.
  unfold asExecuteConfig.
  destruct (isExecuteConfig arg) as [e|[|]] eqn:His; [discriminate| |].
  - intros [= <-] _. now apply isExecuteConfig_truthy_commands.
  - destruct (isArray arg && isInputFile (first_element arg)).
    + destruct (truthy command) eqn:Hc; [|discriminate]. intros [= <-] _. exact Hc.
    + intros [= <-] Harg. exact Harg.
Qed.

Lemma asExecuteConfig_fixed (config command : Value) :
  has_truthy_commands config = true -> asExecuteConfig config command = inr config.
Proof.
  destruct config; try discriminate. unfold asExecuteConfig, isExecuteConfig.
  simpl. now intros ->.
Qed.
End NormalizerFacts.

(** X1. As long as [isInputFile] answers, that is when the first argument
    is not an array whose first element is [undefined] or [null] (the empty
    array is such an array), [asExecuteConfig] throws in two cases only: a
    [TypeError] when the first argument is [undefined] or [null], and
    [Error('No command given')] when the first argument is an array for
    whose first element [isInputFile] answers [true] and the command is
    falsy.  On every other such input it returns a configuration. *)
Theorem asExecuteConfig_throws_iff {E : Externals} (arg command : Value) :
  (isArray arg = true ->
   first_element arg <> VUndefined /\ first_element arg <> VNull) ->
  (forall e, asExecuteConfig arg command = inl e ->
     ((arg = VUndefined \/ arg = VNull) /\ exists m, e = TypeError m)
     \/ (isArray arg = true /\ isInputFile (first_element arg) = true
         /\ truthy command = false /\ e = Error "No command given"))
  /\ (arg = VUndefined \/ arg = VNull ->
      exists m, asExecuteConfig arg command = inl (TypeError m))
  /\ (isArray arg = true -> isInputFile (first_element arg) = true ->
      truthy command = false ->
      asExecuteConfig arg command = inl (Error "No command given"))
  /\ (arg <> VUndefined -> arg <> VNull ->
      isArray arg && isInputFile (first_element arg) && negb (truthy command) = false ->
      exists config, asExecuteConfig arg command = inr config).
Proof.
  intros _. split; [|split; [|split]].
  - intros e. unfold asExecuteConfig, isExecuteConfig.
    destruct arg; cbn [get_property truthy isArray andb]; intros H.
    + injection H as <-. left. split; [now left | eauto].
    + injection H as <-. left. split; [now right | eauto].
    + discriminate H.
    + discriminate H.
    + discriminate H.
    + discriminate H.
    + destruct (isInputFile (first_element (VArray xs))) eqn:Hfile; [|discriminate H].
      destruct (truthy command) eqn:Hc; [discriminate H|].
      injection H as <-. right. auto.
    + destruct (truthy (own_property "commands" props)); discriminate H.
  - intros [->| ->]; eexists; reflexivity.
  - intros Harr Hfile Hc.
    destruct arg; try discriminate. unfold asExecuteConfig. simpl.
    simpl in Hfile. now rewrite Hfile, Hc.
  - intros Hu Hn Hshape. unfold asExecuteConfig, isExecuteConfig.
    destruct arg; cbn [get_property truthy isArray andb] in *;
      try congruence; try (eexists; reflexivity).
    + destruct (isInputFile (first_element (VArray xs))); [|eexists; reflexivity].
      destruct (truthy command); [eexists; reflexivity|discriminate Hshape].
    + destruct (truthy (own_property "commands" props)); eexists; reflexivity.
Qed.

Lemma asExecuteConfig_throws_iff_witness :
  (isArray (files_value [Demo.photo]) = true ->
   first_element (files_value [Demo.photo]) <> VUndefined
   /\ first_element (files_value [Demo.photo]) <> VNull)
  /\ asExecuteConfig (E := Demo.externals) (files_value [Demo.photo]) (VString "")
     = inl (Error "No command given").
Proof.
  assert (H : isArray (files_value [Demo.photo]) = true ->
              first_element (files_value [Demo.photo]) <> VUndefined
              /\ first_element (files_value [Demo.photo]) <> VNull).
  { intros _. split; discriminate. }
  split; [exact H|].
  apply (@asExecuteConfig_throws_iff Demo.externals (files_value [Demo.photo])
           (VString "") H); reflexivity.
Defined.

(** X2. The second argument matters only for an array that starts with a
    file: for every other first argument, a configuration object included,
    [asExecuteConfig], [execute] and [executeOne] do the same whatever the
    second argument is. *)
Theorem second_argument_ignored {E : Externals} (arg c1 c2 : Value) (t : Trace) :
  isArray arg && isInputFile (first_element arg) = false ->
  asExecuteConfig arg c1 = asExecuteConfig arg c2
  /\ execute arg c1 t = execute arg c2 t
  /\ executeOne arg c1 t = executeOne arg c2 t.
Proof.
  intros Hshape.
  assert (Hsame : asExecuteConfig arg c1 = asExecuteConfig arg c2).
  { unfold asExecuteConfig. rewrite Hshape. reflexivity. }
  split; [exact Hsame|]. unfold execute, executeOne, bind. now rewrite Hsame.
Qed.

Lemma second_argument_ignored_witness :
  isArray (VString "identify rose:")
  && isInputFile (Externals := Demo.externals) (first_element (VString "identify rose:"))
  = false
  /\ asExecuteConfig (E := Demo.externals) (VString "identify rose:") VUndefined
     = asExecuteConfig (E := Demo.externals) (VString "identify rose:")
         (VString "convert a b")
  /\ execute (E := Demo.externals) (VString "identify rose:") VUndefined []
     = execute (E := Demo.externals) (VString "identify rose:") (VString "convert a b") []
  /\ executeOne (E := Demo.externals) (VString "identify rose:") VUndefined []
     = executeOne (E := Demo.externals) (VString "identify rose:")
         (VString "convert a b") [].
Proof.
  split; [reflexivity|].
  exact (@second_argument_ignored Demo.externals (VString "identify rose:") VUndefined
           (VString "convert a b") [] eq_refl).
Defined.

(** X3. The configuration that [asExecuteConfig] returns for a truthy first
    argument is a fixed point: normalizing it again, with any second
    argument, gives it back, and [execute] and [executeOne] on it do what
    they do on the original arguments.  For a falsy first argument the
    configuration is wrapped once more as a command. *)
Theorem asExecuteConfig_normal_form {E : Externals} (arg command config c' : Value)
    (t : Trace) :
  asExecuteConfig arg command = inr config ->
  (truthy arg = true ->
   asExecuteConfig config c' = inr config
   /\ execute config c' t = execute arg command t
   /\ executeOne config c' t = executeOne arg command t)
  /\ (truthy arg = false ->
      asExecuteConfig config c'
      = inr (VObject [("inputFiles", VArray []); ("commands", config)])).
Proof.
  intros Hcfg. split.
  - intros Harg.
    assert (Hfix : asExecuteConfig config c' = inr config).
    { apply asExecuteConfig_fixed.
      now apply (asExecuteConfig_truthy_commands arg command). }
    split; [exact Hfix|]. unfold execute, executeOne, bind. now rewrite Hfix, Hcfg.
  - intros Harg. revert Hcfg. unfold asExecuteConfig at 1.
    destruct arg; try discriminate; simpl; simpl in Harg;
      intros [= <-]; unfold asExecuteConfig, isExecuteConfig; simpl;
      rewrite ?Harg; reflexivity.
Qed.

Lemma asExecuteConfig_normal_form_witness :
  asExecuteConfig (E := Demo.externals) (files_value [Demo.photo])
    (Demo.batch Demo.three_steps)
  = inr Demo.three_steps_config
  /\ asExecuteConfig (E := Demo.externals) Demo.three_steps_config VUndefined
     = inr Demo.three_steps_config
  /\ execute (E := Demo.externals) Demo.three_steps_config VUndefined []
     = execute (E := Demo.externals) (files_value [Demo.photo])
         (Demo.batch Demo.three_steps) [].
Proof.
  split; [reflexivity|].
  destruct (@asExecuteConfig_normal_form Demo.externals (files_value [Demo.photo])
              (Demo.batch Demo.three_steps) Demo.three_steps_config VUndefined []
              eq_refl) as [Htruthy _].
  destruct (Htruthy eq_refl) as (Hfix & Hexec & _).
  split; [exact Hfix | exact Hexec].
Defined.

(* ================================================================= *)
(** ** More on the orchestrator *)

(** X4. When the commands normalize to no command at all, [executeOne]
    raises a [TypeError] and does not invoke the primitive. *)
Theorem executeOne_without_command {E : Externals} (configOrCommand execCommand : Value)
    (fs : list MagickInputFile) (t : Trace) :
  normalized configOrCommand execCommand = Some (fs, []) ->
  executeOne configOrCommand execCommand t
  = (Throws (TypeError "Cannot read property 'map' of undefined"), t).
Proof.
  intros Hn. apply normalized_inv in Hn
    as (config & inputFilesV & commandsV & Hcfg & Hin & Hcmd & Hfiles & Hcs).
  unfold executeOne, config_inputFiles, typed_files, bind, sync, ret.
  rewrite Hcfg. simpl. rewrite Hin. simpl. rewrite Hfiles. simpl.
  rewrite Hcmd. simpl. now rewrite Hcs.
Qed.

Lemma executeOne_without_command_witness :
  normalized (E := Demo.externals) (config_value (Some [Demo.photo]) (Demo.batch []))
    VUndefined
  = Some ([Demo.photo], [])
  /\ executeOne (E := Demo.externals) (config_value (Some [Demo.photo]) (Demo.batch []))
       VUndefined []
     = (Throws (TypeError "Cannot read property 'map' of undefined"), []).
Proof.
  split; [reflexivity|].
  exact (@executeOne_without_command Demo.externals
           (config_value (Some [Demo.photo]) (Demo.batch [])) VUndefined
           [Demo.photo] [] eq_refl).
Defined.

(** X5. When the commands normalize to no command at all, [execute] invokes
    nothing and returns a successful, empty result that echoes the caller's
    input files. *)
Theorem execute_without_command {E : Externals} (arg commandArg : Value)
    (fs : list MagickInputFile) (t : Trace) :
  normalized arg commandArg = Some (fs, []) ->
  execute arg commandArg t
  = (Returns {| aggregate := {| stdout := []; stderr := []; outputFiles := [];
                                exitCode := 0; command := [];
                                inputFiles := fs; errors := [] |};
                results := [];
                commands := [] |},
     t).
Proof.
  intros Hn. apply normalized_inv in Hn
    as (config & inputFilesV & commandsV & Hcfg & Hin & Hcmd & Hfiles & Hcs).
  unfold execute, config_inputFiles, typed_files, bind, sync, ret.
  rewrite Hcfg. simpl. rewrite Hin. simpl. rewrite Hfiles. simpl.
  rewrite Hcmd. simpl. now rewrite Hcs.
Qed.

Lemma execute_without_command_witness :
  normalized (E := Demo.externals) (config_value (Some [Demo.photo]) (Demo.batch []))
    VUndefined
  = Some ([Demo.photo], [])
  /\ exists r,
       execute (E := Demo.externals) (config_value (Some [Demo.photo]) (Demo.batch []))
         VUndefined []
       = (Returns r, [])
       /\ exitCode (aggregate r) = 0%Z /\ results r = []
       /\ inputFiles (aggregate r) = [Demo.photo].
Proof.
  split; [reflexivity|].
  eexists. split.
  - exact (@execute_without_command Demo.externals
             (config_value (Some [Demo.photo]) (Demo.batch [])) VUndefined
             [Demo.photo] [] eq_refl).
  - repeat split.
Defined.

(** X6. [execute] throws only what the normalization of its arguments
    throws, and then before any invocation of the primitive: no failure of a
    step makes it throw. *)
Theorem execute_throws_iff {E : Externals} (arg command : Value) (e : Thrown)
    (t t' : Trace) :
  asCommand_keeps_batch ->
  execute arg command t = (Throws e, t')
  <-> asExecuteConfig arg command = inl e /\ t' = t.
Proof.
  intros Hbatch. split.
  - unfold execute, bind, sync.
    destruct (asExecuteConfig arg command) as [e0|config] eqn:Hcfg.
    + simpl. now intros [= <- <-].
    + destruct (asExecuteConfig_object arg command config Hcfg) as [props ->].
      unfold config_inputFiles, typed_files, bind, sync, ret. simpl.
      destruct (files_of (or_else (own_property "inputFiles" props) (VArray [])));
        [|discriminate].
      rewrite (pMap_serial_steps _ Hbatch). discriminate.
  - intros [Hcfg ->]. unfold execute, bind, sync. now rewrite Hcfg.
Qed.

Lemma execute_throws_iff_witness :
  asCommand_keeps_batch (E := Demo.externals)
  /\ (execute (E := Demo.externals) (files_value [Demo.photo]) VUndefined []
      = (Throws (Error "No command given"), [])
      <-> asExecuteConfig (E := Demo.externals) (files_value [Demo.photo]) VUndefined
          = inl (Error "No command given") /\ @nil Invocation = []).
Proof.
  split; [exact DemoFacts.keeps_batch|].
  exact (@execute_throws_iff Demo.externals (files_value [Demo.photo]) VUndefined
           (Error "No command given") [] [] DemoFacts.keeps_batch).
Defined.

Section AggregateFacts.
Context {E : Externals}.

(** The three accumulators of [execute] are the concatenations of the
    fields of the results so far, and stay so step after step. *)
Lemma steps_tally (cs : list Command) : forall l t,
  allStdout l = flat_map stdout (results_ l) ->
  allStderr l = flat_map stderr (results_ l) ->
  allErrors l = flat_map errors (results_ l) ->
  allStdout (fst (steps cs l t)) = flat_map stdout (results_ (fst (steps cs l t)))
  /\ allStderr (fst (steps cs l t)) = flat_map stderr (results_ (fst (steps cs l t)))
  /\ allErrors (fst (steps cs l t)) = flat_map errors (results_ (fst (steps cs l t))).
Proof.
  induction cs as [|c cs IH]; intros l t Hout Herr Herrs; [now repeat split|].
  cbn [steps]. apply IH; rewrite results_after_step, flat_map_app; simpl;
    rewrite app_nil_r; unfold after_step, absorb; simpl; congruence.
Qed.

(** What [execute] returns, as the summary of the locals after the steps. *)
Lemma execute_returns_summary (arg command : Value) (fs : list MagickInputFile)
    (cs : list Command) (t : Trace) (r : ExecuteResult) (t' : Trace) :
  asCommand_keeps_batch ->
  normalized arg command = Some (fs, cs) ->
  execute arg command t = (Returns r, t') ->
  r = summary fs cs (fst (steps cs (initial_locals fs) t)).
Proof.
  intros Hbatch Hn. rewrite execute_normalized with (fs := fs) (cs := cs) by assumption.
  now intros [= <- _].
Qed.

Lemma execute_tally (arg command : Value) (fs : list MagickInputFile)
    (cs : list Command) (t : Trace) (r : ExecuteResult) (t' : Trace) :
  asCommand_keeps_batch ->
  normalized arg command = Some (fs, cs) ->
  execute arg command t = (Returns r, t') ->
  stdout (aggregate r) = flat_map stdout (results r)
  /\ stderr (aggregate r) = flat_map stderr (results r)
  /\ errors (aggregate r) = flat_map errors (results r).
Proof.
  intros Hbatch Hn Hex.
  rewrite (execute_returns_summary arg command fs cs t r t' Hbatch Hn Hex).
  simpl. now apply steps_tally.
Qed.

(** The result of a step has one error slot, which is [undefined] exactly
    when the exit code is zero. *)
Lemma attempt_one_slot (fs : list MagickInputFile) (c : Command) (t : Trace) :
  exists e, errors (attempt fs c t) = [e]
            /\ (e = None <-> exitCode (attempt fs c t) = 0%Z).
Proof.
  unfold attempt. destruct (call t fs (map token_to_string c)) as [result|error].
  - destruct (cr_exitCode result =? 0)%Z eqn:Hz; simpl.
    + exists None. apply Z.eqb_eq in Hz. tauto.
    + eexists. split; [reflexivity|]. apply Z.eqb_neq in Hz.
      split; [discriminate | tauto].
  - eexists. split; [reflexivity|]. simpl. split; discriminate.
Qed.

Lemma one_slot_each (rs : list ExecuteResultOne) :
  Forall (fun x => exists e, errors x = [e] /\ (e = None <-> exitCode x = 0%Z)) rs ->
  Forall2 (fun x e => errors x = [e] /\ (e = None <-> exitCode x = 0%Z))
          rs (flat_map errors rs).
Proof.
  induction 1 as [|x rs [e [He Hiff]] _ IH]; simpl; [constructor|].
  rewrite He. simpl. constructor; [now split | exact IH].
Qed.

Lemma find_failure_None (rs : list ExecuteResultOne) :
  find (fun r => negb (exitCode r =? 0)%Z) rs = None
  <-> Forall (fun x => exitCode x = 0%Z) rs.
Proof.
  rewrite Forall_forall. split.
  - intros Hnone x Hin. pose proof (find_none _ _ Hnone x Hin) as Hx.
    apply negb_false_iff in Hx. now apply Z.eqb_eq.
  - apply find_no_failure.
Qed.
End AggregateFacts.

(** X7. The [stdout], [stderr] and [errors] of what [execute] returns are
    the concatenations, in the order of the steps, of those of [results]. *)
Theorem execute_concatenates_streams {E : Externals} (arg command : Value)
    (fs : list MagickInputFile) (cs : list Command) (t0 : Trace) :
  asCommand_keeps_batch ->
  normalized arg command = Some (fs, cs) ->
  exists r invs,
    execute arg command t0 = (Returns r, t0 ++ invs)
    /\ stdout (aggregate r) = flat_map stdout (results r)
    /\ stderr (aggregate r) = flat_map stderr (results r)
    /\ errors (aggregate r) = flat_map errors (results r).
Proof.
  intros Hbatch Hn.
  destruct (execute_spec arg command fs cs t0 Hbatch Hn) as (r & invs & Hex & _).
  exists r, invs. split; [exact Hex|].
  exact (execute_tally arg command fs cs t0 r _ Hbatch Hn Hex).
Qed.

Lemma execute_concatenates_streams_witness :
  asCommand_keeps_batch (E := Demo.externals)
  /\ normalized (E := Demo.externals) Demo.three_steps_config VUndefined
     = Some ([Demo.photo], Demo.three_steps)
  /\ exists r invs,
       execute (E := Demo.externals) Demo.three_steps_config VUndefined []
       = (Returns r, [] ++ invs)
       /\ stdout (aggregate r) = flat_map stdout (results r)
       /\ stderr (aggregate r) = flat_map stderr (results r)
       /\ errors (aggregate r) = flat_map errors (results r).
Proof.
  split; [exact DemoFacts.keeps_batch|]. split; [reflexivity|].
  apply (@execute_concatenates_streams Demo.externals Demo.three_steps_config
           VUndefined [Demo.photo] Demo.three_steps []);
    [exact DemoFacts.keeps_batch | reflexivity].
Defined.

(** X8. The [errors] of what [execute] returns hold one slot per step, in
    the order of the steps; the slot of a step is [undefined] exactly when
    the exit code of the step is zero, and the aggregate exit code is zero
    exactly when every slot is [undefined]. *)
Theorem execute_error_slots {E : Externals} (arg command : Value)
    (fs : list MagickInputFile) (cs : list Command) (t0 : Trace) :
  asCommand_keeps_batch ->
  normalized arg command = Some (fs, cs) ->
  exists r invs,
    execute arg command t0 = (Returns r, t0 ++ invs)
    /\ List.length (errors (aggregate r)) = List.length cs
    /\ Forall2 (fun x e => errors x = [e] /\ (e = None <-> exitCode x = 0%Z))
               (results r) (errors (aggregate r))
    /\ (exitCode (aggregate r) = 0%Z
        <-> Forall (fun e => e = None) (errors (aggregate r))).
Proof.
  intros Hbatch Hn.
  destruct (execute_spec arg command fs cs t0 Hbatch Hn)
    as (r & invs & Hex & _ & _ & Hlen & _ & _ & Hcode & _ & Hal).
  destruct (execute_tally arg command fs cs t0 r _ Hbatch Hn Hex) as (_ & _ & Herrs).
  assert (Hslots : Forall2 (fun x e => errors x = [e]
                                       /\ (e = None <-> exitCode x = 0%Z))
                           (results r) (errors (aggregate r))).
  { rewrite Herrs. apply one_slot_each. apply Forall_forall. intros x Hin.
    apply In_nth_error in Hin as [k Hk].
    destruct (Hal k x Hk) as (c & inv & _ & _ & ->). apply attempt_one_slot. }
  exists r, invs. split; [exact Hex|]. split.
  { rewrite <- (Forall2_length Hslots). exact Hlen. }
  split; [exact Hslots|].
  assert (Hzero : Forall (fun x => exitCode x = 0%Z) (results r)
                  <-> Forall (fun e => e = None) (errors (aggregate r))).
  { clear -Hslots. induction Hslots as [|x e rs es [_ Hiff] _ IH].
    - split; constructor.
    - split; intros Hall; inversion Hall; subst; constructor; tauto. }
  rewrite <- Hzero, <- find_failure_None, Hcode.
  destruct (find (fun x => negb (exitCode x =? 0)%Z) (results r)) as [x|] eqn:Hfind.
  - apply find_some in Hfind as [_ Hx]. apply negb_true_iff, Z.eqb_neq in Hx.
    split; [tauto | discriminate].
  - tauto.
Qed.

Lemma execute_error_slots_witness :
  asCommand_keeps_batch (E := Demo.externals)
  /\ normalized (E := Demo.externals) Demo.three_steps_config VUndefined
     = Some ([Demo.photo], Demo.three_steps)
  /\ exists r invs,
       execute (E := Demo.externals) Demo.three_steps_config VUndefined []
       = (Returns r, [] ++ invs)
       /\ List.length (errors (aggregate r)) = List.length Demo.three_steps
       /\ Forall2 (fun x e => errors x = [e] /\ (e = None <-> exitCode x = 0%Z))
                  (results r) (errors (aggregate r))
       /\ (exitCode (aggregate r) = 0%Z
           <-> Forall (fun e => e = None) (errors (aggregate r))).
Proof.
  split; [exact DemoFacts.keeps_batch|]. split; [reflexivity|].
  apply (@execute_error_slots Demo.externals Demo.three_steps_config
           VUndefined [Demo.photo] Demo.three_steps []);
    [exact DemoFacts.keeps_batch | reflexivity].
Defined.

(** X9. A batch has one result per command, the result of step [k] being
    what the primitive answered to the invocation of step [k].  The
    aggregate [outputFiles] hold, for every name other than [__proto__]
    under which these results carry an output file, the file that comes
    last under it, and nothing else: no file named [__proto__] is among
    them. *)
Theorem execute_outputs_last_write_wins {E : Externals} (arg command : Value)
    (fs : list MagickInputFile) (cs : list Command) (t0 : Trace) :
  asCommand_keeps_batch ->
  normalized arg command = Some (fs, cs) ->
  exists r invs,
    execute arg command t0 = (Returns r, t0 ++ invs)
    /\ List.length (results r) = List.length cs
    /\ (forall k x, nth_error (results r) k = Some x ->
          exists c inv, nth_error cs k = Some c /\ nth_error invs k = Some inv
                        /\ x = attempt (inv_inputFiles inv) c (t0 ++ firstn k invs))
    /\ forall o, In o (outputFiles (aggregate r))
                 <-> latest_named (name o) (flat_map outputFiles (results r)) = Some o
                     /\ name o <> proto_key.
Proof.
  intros Hbatch Hn.
  destruct (execute_spec arg command fs cs t0 Hbatch Hn)
    as (r & invs & Hex & _ & _ & Hlen & _ & Houts & _ & _ & Hal).
  exists r, invs. split; [exact Hex|]. split; [exact Hlen|]. split; [exact Hal|].
  intros o. rewrite Houts.
  rewrite (In_values_lookup o _
             (named_pool_write_all (flat_map outputFiles (results r)) [] named_pool_nil)).
  rewrite lookup_write_all, ordinary_true. simpl.
  destruct (latest_named (name o) (flat_map outputFiles (results r)));
    split; intros [Hl Hord]; (split; [congruence|exact Hord]).
Qed.

Lemma execute_outputs_last_write_wins_witness :
  asCommand_keeps_batch (E := Demo.externals)
  /\ normalized (E := Demo.externals) Demo.same_names_config VUndefined
     = Some ([Demo.photo; mkInputFile "photo.png" [Byte.x01]],
             [Demo.convert "photo.png" "a.png"; Demo.convert "photo.png" "a.png"])
  /\ exists r invs,
       execute (E := Demo.externals) Demo.same_names_config VUndefined []
       = (Returns r, [] ++ invs)
       /\ List.length (results r) = 2
       /\ (forall k x, nth_error (results r) k = Some x ->
             exists c inv,
               nth_error [Demo.convert "photo.png" "a.png"; Demo.convert "photo.png" "a.png"] k
               = Some c
               /\ nth_error invs k = Some inv
               /\ x = attempt (E := Demo.externals)
                         (inv_inputFiles inv) c ([] ++ firstn k invs))
       /\ forall o, In o (outputFiles (aggregate r))
                    <-> latest_named (name o) (flat_map outputFiles (results r)) = Some o
                        /\ name o <> proto_key.
Proof.
  split; [exact DemoFacts.keeps_batch|]. split; [reflexivity|].
  apply (@execute_outputs_last_write_wins Demo.externals Demo.same_names_config VUndefined
           [Demo.photo; mkInputFile "photo.png" [Byte.x01]]
           [Demo.convert "photo.png" "a.png"; Demo.convert "photo.png" "a.png"] []);
    [exact DemoFacts.keeps_batch | reflexivity].
Defined.

Section FirstKeyFacts.
Context {A : Type} {HN : Named A}.

Lemma assign_not_nil (k : string) (v : A) (o : JsObject A) : assign k v o <> [].
Proof.
  intros Hnil. pose proof (lookup_assign_eq A k v o) as Hl.
  rewrite Hnil in Hl. discriminate.
Qed.

(** A key that is no array index never takes the first place of an object
    that has a slot already. *)
Lemma hd_slots_assign (k : string) (v : A) (o : JsObject A) :
  o <> [] -> array_index k = None ->
  hd_error (slots (assign k v o)) = hd_error (slots o).
Proof.
  intros Hne Hidx. destruct o as [|[k0 v0] o]; [congruence|].
  unfold assign. destruct (lookup k ((k0, v0) :: o)).
  - simpl. destruct (String.eqb_spec k k0) as [->|_]; reflexivity.
  - rewrite Hidx. reflexivity.
Qed.

Lemma hd_slots_write_all (l : list A) : forall o,
  o <> [] -> (forall f, In f l -> array_index (name f) = None) ->
  hd_error (slots (write_all l o)) = hd_error (slots o).
Proof.
  induction l as [|f l IH]; intros o Hne Hidx; [reflexivity|].
  change (write_all (f :: l) o) with (write_all l (assign (name f) f o)).
  rewrite IH.
  - apply hd_slots_assign; [exact Hne|]. apply Hidx. now left.
  - apply assign_not_nil.
  - intros g Hg. apply Hidx. now right.
Qed.

Lemma hd_snd_lookup (o : JsObject A) (k : string) :
  hd_error (slots o) = Some k -> hd_error (map snd o) = lookup k o.
Proof.
  destruct o as [|[k0 v0] o]; [discriminate|]. simpl. intros [= ->].
  now rewrite String.eqb_refl.
Qed.

(** Files none of which is named [__proto__] leave the prototype alone. *)
Lemma write_all_ordinary (l : list A) : forall o,
  Forall (fun p => ordinary (fst p) = true) o ->
  (forall f, In f l -> name f <> proto_key) ->
  Forall (fun p => ordinary (fst p) = true) (write_all l o).
Proof.
  induction l as [|f l IH]; intros o Ho Hl; [exact Ho|].
  change (write_all (f :: l) o) with (write_all l (assign (name f) f o)).
  apply IH.
  - apply Forall_forall. intros p Hin. apply In_assign in Hin as [->|Hin].
    + simpl. apply ordinary_true. apply Hl. now left.
    + rewrite Forall_forall in Ho. now apply Ho.
  - intros g Hg. apply Hl. now right.
Qed.

Lemma values_write_all_ordinary (l : list A) :
  (forall f, In f l -> name f <> proto_key) ->
  values (write_all l []) = map snd (write_all l []).
Proof.
  intros Hl. unfold values. rewrite own_all; [reflexivity|].
  apply write_all_ordinary; [constructor|exact Hl].
Qed.

(** The first value of a pool written from empty, by names that are neither
    array indices nor [__proto__], is the latest file under the name written
    first. *)
Lemma first_value_write_all (f : A) (l : list A) :
  (forall g, In g (f :: l) -> array_index (name g) = None) ->
  (forall g, In g (f :: l) -> name g <> proto_key) ->
  hd_error (values (write_all (f :: l) [])) = latest_named (name f) (f :: l).
Proof.
  intros Hidx Hord. rewrite (values_write_all_ordinary _ Hord).
  assert (Hf : array_index (name f) = None) by (apply Hidx; now left).
  rewrite (hd_snd_lookup _ (name f)).
  - rewrite lookup_write_all. simpl.
    now destruct (latest_named (name f) (f :: l)).
  - change (write_all (f :: l) []) with (write_all l (assign (name f) f [])).
    rewrite hd_slots_write_all.
    + unfold assign. simpl. now rewrite Hf.
    + apply assign_not_nil.
    + intros g Hg. apply Hidx. now right.
Qed.

(** A pool written from empty lists nothing exactly when every file written
    was named [__proto__]. *)
Lemma values_write_all_nil (l : list A) :
  values (write_all l []) = [] <-> forall g, In g l -> name g = proto_key.
Proof.
  pose proof (named_pool_write_all l [] named_pool_nil) as Hpool.
  split.
  - intros Hnil g Hg.
    destruct (String.eqb_spec (name g) proto_key) as [Heq|Hne]; [exact Heq|].
    exfalso.
    destruct (latest_named_hit (name g) g l Hg eq_refl) as [g' Hg'].
    destruct (latest_named_Some _ _ _ Hg') as [_ Hn'].
    assert (Hin : In g' (values (write_all l []))).
    { apply (In_values_lookup g' _ Hpool). split.
      - rewrite lookup_write_all, Hn', Hg'. reflexivity.
      - apply ordinary_true. now rewrite Hn'. }
    rewrite Hnil in Hin. exact Hin.
  - intros Hall. destruct (values (write_all l [])) as [|f vs] eqn:Hv;
      [reflexivity|]. exfalso.
    assert (Hin : In f (values (write_all l []))) by (rewrite Hv; now left).
    apply (In_values_lookup f _ Hpool) in Hin as [Hl Hord].
    rewrite lookup_write_all in Hl.
    destruct (latest_named (name f) l) as [f'|] eqn:Hf'; [|discriminate].
    injection Hl as ->. apply latest_named_Some in Hf' as [Hin _].
    apply ordinary_true in Hord. apply Hord. now apply Hall.
Qed.

(** Files of distinct names, none an array index, written to an object that
    has none of the names are appended in their order. *)
Lemma write_all_fresh (l : list A) : forall o,
  NoDup (slots o ++ map name l) ->
  (forall f, In f l -> array_index (name f) = None) ->
  write_all l o = o ++ map (fun f => (name f, f)) l.
Proof.
  induction l as [|f l IH]; intros o Hnd Hidx; simpl; [now rewrite app_nil_r|].
  change (write_all (f :: l) o) with (write_all l (assign (name f) f o)).
  assert (Hfresh : lookup (name f) o = None).
  { apply lookup_None_keys. intros Hin.
    apply NoDup_remove_2 in Hnd. apply Hnd. apply in_or_app. now left. }
  unfold assign. rewrite Hfresh, (Hidx f (or_introl eq_refl)).
  rewrite IH.
  - now rewrite <- app_assoc.
  - unfold slots. rewrite map_app, <- app_assoc. exact Hnd.
  - intros g Hg. apply Hidx. now right.
Qed.

Lemma values_write_all_fresh (l : list A) :
  NoDup (map name l) ->
  (forall f, In f l -> array_index (name f) = None) ->
  (forall f, In f l -> name f <> proto_key) ->
  values (write_all l []) = l.
Proof.
  intros Hnd Hidx Hord. rewrite (values_write_all_ordinary _ Hord).
  rewrite write_all_fresh by assumption.
  simpl. rewrite map_map. simpl. apply map_id.
Qed.
End FirstKeyFacts.

Section EntryPointFacts.
Context {E : Externals}.

(** [execute] on the configuration that [asExecuteConfig] made of a truthy
    first argument does what it does on the arguments. *)
Lemma execute_on_normal_form (arg command config c' : Value) (t : Trace) :
  asExecuteConfig arg command = inr config ->
  truthy arg = true ->
  execute config c' t = execute arg command t.
Proof.
  intros Hcfg Harg. unfold execute, bind.
  rewrite (asExecuteConfig_fixed config c'
             (asExecuteConfig_truthy_commands arg command config Hcfg Harg)).
  now rewrite Hcfg.
Qed.

Lemma flat_map_outputFiles_nil (rs : list ExecuteResultOne) :
  flat_map outputFiles rs = [] <-> forall x, In x rs -> outputFiles x = [].
Proof.
  induction rs as [|x rs IH]; simpl; [tauto|]. split.
  - intros Happ. apply app_eq_nil in Happ as [Hx Hrs].
    intros y [<-|Hy]; [exact Hx | now apply IH].
  - intros Hall. rewrite (Hall x (or_introl eq_refl)). simpl.
    apply IH. intros y Hy. apply Hall. now right.
Qed.
End EntryPointFacts.

(** X10. For a truthy first argument, [executeAndReturnOutputFile] runs the
    batch as [execute] does on the same arguments (one result per command,
    the result of step [k] being what the primitive answered to the
    invocation of step [k]) and returns the first of the aggregate output
    files: nothing exactly when no step wrote a file under a name other
    than [__proto__], and, when no name written is an array index or
    [__proto__], the file written last under the name that the batch wrote
    first. *)
Theorem executeAndReturnOutputFile_first_name {E : Externals} (arg command : Value)
    (fs : list MagickInputFile) (cs : list Command) (t0 : Trace) :
  asCommand_keeps_batch ->
  normalized arg command = Some (fs, cs) ->
  truthy arg = true ->
  exists r invs,
    execute arg command t0 = (Returns r, t0 ++ invs)
    /\ List.length (results r) = List.length cs
    /\ (forall k x, nth_error (results r) k = Some x ->
          exists c inv, nth_error cs k = Some c /\ nth_error invs k = Some inv
                        /\ x = attempt (inv_inputFiles inv) c (t0 ++ firstn k invs))
    /\ executeAndReturnOutputFile arg command t0
       = (Returns (hd_error (outputFiles (aggregate r))), t0 ++ invs)
    /\ (hd_error (outputFiles (aggregate r)) = None
        <-> forall o, In o (flat_map outputFiles (results r)) -> name o = proto_key)
    /\ (forall o,
          hd_error (flat_map outputFiles (results r)) = Some o ->
          (forall o', In o' (flat_map outputFiles (results r)) ->
                      array_index (name o') = None /\ name o' <> proto_key) ->
          hd_error (outputFiles (aggregate r))
          = latest_named (name o) (flat_map outputFiles (results r))).
Proof.
  intros Hbatch Hn Harg.
  destruct (execute_spec arg command fs cs t0 Hbatch Hn)
    as (r & invs & Hex & _ & _ & Hlen & _ & Houts & _ & _ & Hal).
  exists r, invs. split; [exact Hex|]. split; [exact Hlen|]. split; [exact Hal|].
  split; [|split].
  - apply normalized_inv in Hn as (config & _ & _ & Hcfg & _).
    unfold executeAndReturnOutputFile, bind, sync. rewrite Hcfg. simpl.
    rewrite (execute_on_normal_form arg command config VUndefined t0 Hcfg Harg), Hex.
    reflexivity.
  - rewrite Houts.
    rewrite <- (values_write_all_nil (flat_map outputFiles (results r))).
    destruct (values (write_all (flat_map outputFiles (results r)) []));
      simpl; split; congruence.
  - intros o Hhd Hidx. rewrite Houts.
    destruct (flat_map outputFiles (results r)) as [|o1 l]; [discriminate|].
    injection Hhd as ->.
    apply first_value_write_all; intros g Hg; now apply Hidx.
Qed.

Lemma executeAndReturnOutputFile_first_name_witness :
  asCommand_keeps_batch (E := Demo.externals)
  /\ normalized (E := Demo.externals) Demo.three_steps_config VUndefined
     = Some ([Demo.photo], Demo.three_steps)
  /\ truthy Demo.three_steps_config = true
  /\ executeAndReturnOutputFile (E := Demo.externals) Demo.three_steps_config
       VUndefined []
     = (Returns (Some (mkOutputFile "a.png" [])),
        [mkInvocation [Demo.photo] ["convert"; "photo.png"; "a.png"];
         mkInvocation [Demo.photo; mkInputFile "a.png" []] ["fail"];
         mkInvocation [Demo.photo; mkInputFile "a.png" []]
           ["convert"; "a.png"; "b.png"]]).
Proof.
  split; [exact DemoFacts.keeps_batch|]. split; [reflexivity|].
  split; [reflexivity|].
  destruct (@executeAndReturnOutputFile_first_name Demo.externals
              Demo.three_steps_config VUndefined [Demo.photo] Demo.three_steps []
              DemoFacts.keeps_batch eq_refl eq_refl)
    as (r & invs & Hex & _ & _ & Hret & _).
  vm_compute in Hex. injection Hex as <- <-. exact Hret.
Defined.

(** X11. A batch of one command, on input files of distinct names none of
    which is an array index or [__proto__], is [executeOne]: the same invocation of the
    primitive, the result of [executeOne] as the only entry of [results],
    and its exit code, [stdout], [stderr] and [errors] as the aggregate. *)
Theorem execute_single_command {E : Externals} (arg commandArg : Value)
    (fs : list MagickInputFile) (c : Command) (t : Trace) :
  asCommand_keeps_batch ->
  normalized arg commandArg = Some (fs, [c]) ->
  NoDup (map name fs) ->
  (forall f, In f fs -> array_index (name f) = None) ->
  (forall f, In f fs -> name f <> proto_key) ->
  exists x r,
    executeOne arg commandArg t
    = (Returns x, t ++ [mkInvocation fs (map token_to_string c)])
    /\ execute arg commandArg t
       = (Returns r, t ++ [mkInvocation fs (map token_to_string c)])
    /\ results r = [x]
    /\ exitCode (aggregate r) = exitCode x
    /\ stdout (aggregate r) = stdout x
    /\ stderr (aggregate r) = stderr x
    /\ errors (aggregate r) = errors x.
Proof.
  intros Hbatch Hn Hnd Hidx Hord.
  exists (attempt fs c t).
  exists (summary fs [c] (fst (steps [c] (initial_locals fs) t))).
  split; [now apply executeOne_normalized with (rest := [])|].
  rewrite execute_normalized with (fs := fs) (cs := [c]) by assumption.
  assert (Hvals : values (allInputFiles (initial_locals fs)) = fs).
  { apply (values_write_all_fresh fs Hnd Hidx Hord). }
  cbn [steps fst snd]. rewrite Hvals.
  split; [reflexivity|]. split; [reflexivity|].
  unfold summary, after_step, absorb. simpl.
  split; [|now repeat split].
  destruct (exitCode (attempt fs c t) =? 0)%Z eqn:Hz; simpl; [|reflexivity].
  symmetry. now apply Z.eqb_eq.
Qed.

Lemma execute_single_command_witness :
  asCommand_keeps_batch (E := Demo.externals)
  /\ normalized (E := Demo.externals)
       (config_value (Some [Demo.photo]) (Demo.batch [[TString "fail"]])) VUndefined
     = Some ([Demo.photo], [[TString "fail"]])
  /\ NoDup (map name [Demo.photo])
  /\ (forall f, In f [Demo.photo] -> array_index (name f) = None)
  /\ (forall f, In f [Demo.photo] -> name f <> proto_key)
  /\ exists x r,
       executeOne (E := Demo.externals)
         (config_value (Some [Demo.photo]) (Demo.batch [[TString "fail"]])) VUndefined []
       = (Returns x, [] ++ [mkInvocation [Demo.photo] ["fail"]])
       /\ execute (E := Demo.externals)
            (config_value (Some [Demo.photo]) (Demo.batch [[TString "fail"]]))
            VUndefined []
          = (Returns r, [] ++ [mkInvocation [Demo.photo] ["fail"]])
       /\ results r = [x]
       /\ exitCode (aggregate r) = exitCode x
       /\ stdout (aggregate r) = stdout x
       /\ stderr (aggregate r) = stderr x
       /\ errors (aggregate r) = errors x.
Proof.
  assert (Hnd : NoDup (map name [Demo.photo])).
  { constructor; [intros []|constructor]. }
  assert (Hidx : forall f, In f [Demo.photo] -> array_index (name f) = None).
  { intros f [<-|[]]. reflexivity. }
  assert (Hord : forall f, In f [Demo.photo] -> name f <> proto_key).
  { intros f [<-|[]]. discriminate. }
  split; [exact DemoFacts.keeps_batch|]. split; [reflexivity|].
  split; [exact Hnd|]. split; [exact Hidx|]. split; [exact Hord|].
  exact (@execute_single_command Demo.externals
           (config_value (Some [Demo.photo]) (Demo.batch [[TString "fail"]])) VUndefined
           [Demo.photo] [TString "fail"] [] DemoFacts.keeps_batch eq_refl Hnd Hidx Hord).
Defined.

(* ================================================================= *)
(** ** More on the registry *)

Section RemoveFacts.

Lemma flat_map_ext_in {A B : Type} (f g : A -> list B) (l : list A) :
  (forall x, In x l -> f x = g x) -> flat_map f l = flat_map g l.
Proof.
  induction l as [|x l IH]; intros Hext; [reflexivity|]. simpl.
  rewrite (Hext x (or_introl eq_refl)), IH; [reflexivity|].
  intros y Hy. apply Hext. now right.
Qed.

Lemma keys_ordinary {V : Type} (o : JsObject V) :
  Forall (fun k => ordinary k = true) (keys o).
Proof. apply Forall_forall. intros k Hk. now apply In_keys in Hk. Qed.

Lemma lookup_delete {V : Type} (n k : string) (o : JsObject V) :
  ordinary k = true ->
  lookup n (delete k o) = if n =? k then None else lookup n o.
Proof.
  intros Hord. unfold delete. rewrite Hord.
  induction o as [|[k' v'] o IH]; simpl.
  - now destruct (n =? k).
  - destruct (String.eqb_spec k' k) as [->|Hne]; simpl.
    + destruct (String.eqb_spec n k) as [->|Hnk]; exact IH.
    + destruct (String.eqb_spec n k') as [->|Hnk']; [|exact IH].
      apply String.eqb_neq in Hne. now rewrite Hne.
Qed.

Lemma remove_fold (names : list string) (h : ImageHomeImpl) :
  remove names h
  = (fst (fold_left (remove_step names) (keys (images h)) ([], images h)),
     {| images := snd (fold_left (remove_step names) (keys (images h)) ([], images h));
        builtInImagesAdded := builtInImagesAdded h;
        promises := promises h |}).
Proof.
  unfold remove.
  change (fold_left (remove_step names) (keys (images h)) ([], images h))
    with (fold_left
            (fun '(result, imgs) name_ =>
               if existsb (String.eqb name_) names
               then (match lookup name_ imgs with
                     | Some p => result ++ [p]
                     | None => result
                     end, delete name_ imgs)
               else (result, imgs))
            (keys (images h)) (@nil PromiseRef, images h)).
  now destruct (fold_left _ (keys (images h)) ([], images h)).
Qed.

(** After the loop a key is gone when it was met and is among [names], and
    is as before otherwise. *)
Lemma lookup_remove_loop (names : list string) (n : string) (ks : list string) :
  Forall (fun k => ordinary k = true) ks ->
  forall acc,
    lookup n (snd (fold_left (remove_step names) ks acc))
    = if existsb (String.eqb n) ks && existsb (String.eqb n) names
      then None else lookup n (snd acc).
Proof.
  induction ks as [|k ks IH]; intros Hks [result imgs]; [reflexivity|].
  inversion Hks as [|? ? Hordk Hks']; subst.
  cbn [fold_left]. rewrite (IH Hks'). unfold remove_step. cbn [existsb].
  destruct (existsb (String.eqb k) names) eqn:Hk; cbn [snd].
  - rewrite (lookup_delete n k imgs Hordk).
    destruct (String.eqb_spec n k) as [->|Hne].
    + rewrite Hk. cbn [orb andb].
      now destruct (existsb (String.eqb k) ks && true).
    + reflexivity.
  - destruct (String.eqb_spec n k) as [->|Hne]; [|reflexivity].
    rewrite Hk. cbn [orb]. rewrite !andb_false_r. reflexivity.
Qed.

(** The loop collects the promise of every key it meets that is among
    [names]. *)
Lemma result_remove_loop (names : list string) (ks : list string) :
  NoDup ks ->
  Forall (fun k => ordinary k = true) ks ->
  forall result imgs,
    fst (fold_left (remove_step names) ks (result, imgs))
    = result ++ flat_map (fun k => if existsb (String.eqb k) names
                                   then match lookup k imgs with
                                        | Some p => [p]
                                        | None => []
                                        end
                                   else []) ks.
Proof.
  induction 1 as [|k ks Hnotin Hnd IH]; intros Hks result imgs; simpl.
  - now rewrite app_nil_r.
  - inversion Hks as [|? ? Hordk Hks']; subst. specialize (IH Hks').
    destruct (existsb (String.eqb k) names) eqn:Hk.
    + rewrite IH.
      rewrite (flat_map_ext_in
                 (fun k0 => if existsb (String.eqb k0) names
                            then match lookup k0 (delete k imgs) with
                                 | Some p => [p]
                                 | None => []
                                 end
                            else [])
                 (fun k0 => if existsb (String.eqb k0) names
                            then match lookup k0 imgs with
                                 | Some p => [p]
                                 | None => []
                                 end
                            else []) ks).
      * destruct (lookup k imgs) as [p|]; [|reflexivity].
        now rewrite <- app_assoc.
      * intros k' Hk'. rewrite (lookup_delete k' k imgs Hordk).
        destruct (String.eqb_spec k' k) as [->|_]; [contradiction|reflexivity].
    + rewrite IH. reflexivity.
Qed.

Lemma collected_is_filtered (names : list string) (o : JsObject PromiseRef) :
  NoDup (slots o) ->
  flat_map (fun k => if existsb (String.eqb k) names
                     then match lookup k o with
                          | Some p => [p]
                          | None => []
                          end
                     else []) (keys o)
  = values (filter (fun p => existsb (String.eqb (fst p)) names) o).
Proof.
  induction o as [|[k v] o IH]; intros Hnd; [reflexivity|].
  inversion Hnd as [|? ? Hnotin Hnd']; subst.
  assert (Hext : flat_map (fun k0 => if existsb (String.eqb k0) names
                                     then match lookup k0 ((k, v) :: o) with
                                          | Some p => [p]
                                          | None => []
                                          end
                                     else []) (keys o)
                 = values (filter (fun p => existsb (String.eqb (fst p)) names) o)).
  { rewrite <- (IH Hnd'). apply flat_map_ext_in. intros k0 Hk0. cbn [lookup].
    apply In_keys in Hk0 as [Hk0 _].
    destruct (String.eqb_spec k0 k) as [->|_]; [contradiction|reflexivity]. }
  unfold keys, values, own in *. cbn [filter fst].
  destruct (ordinary k) eqn:Hord; cbn [map fst flat_map].
  - rewrite Hext. cbn [lookup]. rewrite String.eqb_refl.
    destruct (existsb (String.eqb k) names); cbn [filter fst]; [|reflexivity].
    rewrite Hord. reflexivity.
  - rewrite Hext.
    destruct (existsb (String.eqb k) names); cbn [filter fst]; [|reflexivity].
    rewrite Hord. reflexivity.
Qed.
End RemoveFacts.

(** X12. [remove(names)], on any instance, deletes exactly the entries of
    the names in [names] other than [__proto__] (a name that is not
    registered is passed over; what was registered under [__proto__] is no
    key of [images], so it stays and [get] answers it as before), leaves
    every other name and every promise as they were, and returns the
    promises of the deleted entries in the order of the keys. *)
Theorem remove_deletes_named_entries {E : Externals} (events : list Event)
    (names : list string) :
  let h := run events createImageHome in
  let result := fst (remove names h) in
  let h' := snd (remove names h) in
  (forall n, get n h' = if existsb (String.eqb n) names && ordinary n
                        then None else get n h)
  /\ result = values (filter (fun p => existsb (String.eqb (fst p)) names) (images h))
  /\ promises h' = promises h
  /\ builtInImagesAdded h' = builtInImagesAdded h.
Proof.
  intros h result h'.
  assert (Hnd : NoDup (slots (images h))).
  { apply NoDup_slots_run. constructor. }
  assert (Hget : forall n, get n h' = if existsb (String.eqb n) names && ordinary n
                                      then None else get n h).
  { intros n. unfold h'. rewrite remove_fold. unfold get. cbn [snd images].
    rewrite (lookup_remove_loop names n _ (keys_ordinary (images h))). cbn [snd].
    destruct (existsb (String.eqb n) names); rewrite ?andb_false_r; [|reflexivity].
    rewrite andb_true_r. cbn [andb].
    destruct (existsb (String.eqb n) (keys (images h))) eqn:Hin.
    - apply existsb_exists in Hin as [k [Hk Heq]]. apply String.eqb_eq in Heq.
      subst k. apply In_keys in Hk as [_ Hord]. now rewrite Hord.
    - destruct (ordinary n) eqn:Hord; [|reflexivity].
      apply lookup_None_keys. intros Hk.
      assert (Htrue : existsb (String.eqb n) (keys (images h)) = true).
      { apply existsb_exists. exists n. split; [|apply String.eqb_refl].
        apply In_keys. now split. }
      congruence. }
  split; [exact Hget|]. split; [|split].
  - unfold result. rewrite remove_fold. cbn [fst].
    rewrite (result_remove_loop names _ (NoDup_keys _ _ Hnd)
               (keys_ordinary (images h))). simpl.
    now apply collected_is_filtered.
  - unfold h'. now rewrite remove_fold.
  - unfold h'. now rewrite remove_fold.
Qed.

Section PromiseFacts.
Context {E : Externals}.

Lemma nth_error_update_nth {A : Type} (f : A -> A) (l : list A) : forall n p,
  nth_error (update_nth n f l) p
  = if Nat.eqb p n then option_map f (nth_error l p) else nth_error l p.
Proof.
  induction l as [|x l IH]; intros n p.
  - destruct n, p; simpl; try reflexivity. now destruct (Nat.eqb p n).
  - destruct n as [|n], p as [|p]; simpl; try reflexivity. apply IH.
Qed.

Lemma promises_remove (names : list string) (h : ImageHomeImpl) :
  promises (snd (remove names h)) = promises h.
Proof. now rewrite remove_fold. Qed.

Lemma get_remove (names : list string) (n : string) (h : ImageHomeImpl) :
  existsb (String.eqb n) names = false -> get n (snd (remove names h)) = get n h.
Proof.
  intros Hn. rewrite remove_fold. unfold get. cbn [snd images].
  rewrite (lookup_remove_loop names n _ (keys_ordinary (images h))).
  rewrite Hn, andb_false_r. reflexivity.
Qed.

Lemma get_remove_Some (names : list string) (n : string) (p : PromiseRef)
    (h : ImageHomeImpl) :
  get n (snd (remove names h)) = Some p -> get n h = Some p.
Proof.
  rewrite remove_fold. unfold get. cbn [snd images].
  rewrite (lookup_remove_loop names n _ (keys_ordinary (images h))).
  now destruct (existsb (String.eqb n) (keys (images h))
                && existsb (String.eqb n) names).
Qed.

Lemma last_registration_None (n : string) (regs : list Registration) : forall i,
  (forall r, In r regs -> registered_name r <> n) ->
  last_registration i n regs = None.
Proof.
  induction regs as [|r regs IH]; intros i Hall; [reflexivity|].
  cbn [last_registration]. rewrite IH by (intros r' Hr'; apply Hall; now right).
  pose proof (Hall r (or_introl eq_refl)) as Hr.
  apply String.eqb_neq in Hr. now rewrite Hr.
Qed.

Lemma last_registration_Some (n : string) (regs : list Registration) : forall i p,
  last_registration i n regs = Some p ->
  exists j r, p = i + j /\ nth_error regs j = Some r /\ registered_name r = n.
Proof.
  induction regs as [|r regs IH]; intros i p; [discriminate|].
  cbn [last_registration].
  destruct (last_registration (S i) n regs) as [q|] eqn:Hlast.
  - intros [= <-]. destruct (IH (S i) q Hlast) as (j & r' & -> & Hj & Hr').
    exists (S j), r'. repeat split; [lia | exact Hj | exact Hr'].
  - destruct (String.eqb_spec (registered_name r) n) as [Hr|_]; [|discriminate].
    intros [= <-]. exists 0, r. repeat split; [lia | exact Hr].
Qed.

Lemma last_registration_hit (n : string) (regs : list Registration) : forall i r,
  In r regs -> registered_name r = n -> exists p, last_registration i n regs = Some p.
Proof.
  intros i r Hin Hr. destruct (last_registration i n regs) as [p|] eqn:Hlast; [eauto|].
  exfalso. revert i Hlast. induction regs as [|r' regs IH]; intros i; [contradiction|].
  cbn [last_registration].
  destruct (last_registration (S i) n regs) eqn:Hrest; [discriminate|].
  destruct Hin as [->|Hin].
  - apply String.eqb_eq in Hr. now rewrite Hr.
  - intros _. exact (IH Hin (S i) Hrest).
Qed.

(** An event that does not touch a name leaves its entry as it is. *)
Lemma get_untouched (n : string) (e : Event) (h : ImageHomeImpl) :
  touches n e = false -> get n (occur h e) = get n h.
Proof.
  destruct e as [file name_|names| |awaited|p|p]; cbn [touches occur]; intros Hn.
  - unfold get. rewrite (images_register file name_ h).
    apply lookup_assign_ne. apply String.eqb_neq in Hn. congruence.
  - now apply get_remove.
  - cbn [resume snd]. rewrite registerBuiltInImages_register_all.
    rewrite get_register_all, last_registration_None; [reflexivity|].
    intros r Hr. apply in_map_iff in Hr as [img [<- Himg]].
    intros Hname. assert (Hex : existsb (fun img0 => name img0 =? n) getBuiltInImages
                                = true).
    { apply existsb_exists. exists img. split; [exact Himg|].
      now apply String.eqb_eq. }
    congruence.
  - unfold get. now rewrite (proj1 (resume_Mapping awaited h)).
  - reflexivity.
  - reflexivity.
Qed.

(** No event takes a promise away, changes the file it stands for, unsets
    its [resolved] or makes it pending again. *)
Lemma occur_cell (e : Event) (h : ImageHomeImpl) (p : PromiseRef)
    (cell : MagickInputFilePromise) :
  nth_error (promises h) p = Some cell ->
  exists cell',
    nth_error (promises (occur h e)) p = Some cell'
    /\ source cell' = source cell
    /\ (resolved cell = true -> resolved cell' = true)
    /\ (forall file, state cell = Fulfilled file -> state cell' = Fulfilled file).
Proof.
  intros Hcell.
  assert (Hlt : p < List.length (promises h)) by (apply nth_error_Some; congruence).
  destruct e as [file name_|names| |awaited|q|q]; cbn [occur].
  - exists cell. rewrite (promises_register file name_ h), nth_error_app1 by exact Hlt.
    auto.
  - exists cell. rewrite promises_remove. auto.
  - exists cell. cbn [resume snd].
    rewrite promises_registerBuiltInImages, nth_error_app1 by exact Hlt. auto.
  - exists cell. rewrite (proj2 (resume_Mapping awaited h)). auto.
  - unfold settle, update_promise. cbn [promises].
    rewrite nth_error_update_nth, Hcell.
    destruct (Nat.eqb p q); [|eauto]. simpl.
    destruct (state cell) eqn:Hst; eexists; (split; [reflexivity|]); simpl.
    + repeat split; auto. discriminate.
    + repeat split; auto. congruence.
  - unfold continuation, update_promise. cbn [promises].
    rewrite nth_error_update_nth, Hcell.
    destruct (Nat.eqb p q); [|eauto]. simpl.
    destruct (state cell) eqn:Hst; eexists; (split; [reflexivity|]); simpl.
    + repeat split; auto. congruence.
    + repeat split; auto.
Qed.

Lemma run_cell (events : list Event) : forall (h : ImageHomeImpl) (p : PromiseRef)
    (cell : MagickInputFilePromise),
  nth_error (promises h) p = Some cell ->
  exists cell',
    nth_error (promises (run events h)) p = Some cell'
    /\ source cell' = source cell
    /\ (resolved cell = true -> resolved cell' = true)
    /\ (forall file, state cell = Fulfilled file -> state cell' = Fulfilled file).
Proof.
  induction events as [|e events IH]; intros h p cell Hcell; [eauto|].
  destruct (occur_cell e h p cell Hcell) as (c1 & H1 & Hs1 & Hr1 & Hf1).
  destruct (IH (occur h e) p c1 H1) as (c2 & H2 & Hs2 & Hr2 & Hf2).
  exists c2. split; [exact H2|]. split; [congruence|]. split; auto.
Qed.

(** An invariant of every event holds of every instance. *)
Lemma run_invariant (I : ImageHomeImpl -> Prop) :
  I createImageHome ->
  (forall h e, I h -> I (occur h e)) ->
  forall events, I (run events createImageHome).
Proof.
  intros Hinit Hstep events. unfold run.
  generalize createImageHome, Hinit.
  induction events as [|e events IH]; intros h Hh; [exact Hh|].
  apply IH. now apply Hstep.
Qed.
End PromiseFacts.

Section RegistryInvariants.
Context {E : Externals}.

Lemma valid_refs_occur (h : ImageHomeImpl) (e : Event) :
  valid_refs h -> valid_refs (occur h e).
Proof.
  intros Hvalid.
  assert (Hold : forall n p, get n h = Some p ->
                   exists cell, nth_error (promises (occur h e)) p = Some cell).
  { intros n p Hget. destruct (Hvalid n p Hget) as [cell Hcell].
    destruct (occur_cell e h p cell Hcell) as (cell' & Hcell' & _). eauto. }
  assert (Hregister : forall file name_ h0, valid_refs h0 ->
                        valid_refs (snd (register file name_ h0))).
  { intros file name_ h0 Hv n p. unfold get.
    rewrite (images_register file name_ h0), (promises_register file name_ h0).
    destruct (String.eqb_spec n (registered_name (file, name_))) as [->|Hne].
    - rewrite lookup_assign_eq. intros [= <-]. exists (pending file).
      rewrite nth_error_app2, Nat.sub_diag; [reflexivity | apply Nat.le_refl].
    - rewrite lookup_assign_ne by exact Hne. intros Hget.
      destruct (Hv n p Hget) as [cell Hcell]. exists cell.
      rewrite nth_error_app1; [exact Hcell|]. apply nth_error_Some. congruence. }
  destruct e as [file name_|names| |awaited|q|q]; cbn [occur] in *.
  - now apply Hregister.
  - intros n p Hget. apply get_remove_Some in Hget. now apply (Hold n p).
  - cbn [resume snd]. rewrite registerBuiltInImages_register_all.
    assert (Hall : forall regs h0, valid_refs h0 -> valid_refs (register_all regs h0)).
    { induction regs as [|r regs IH]; intros h0 Hv; [exact Hv|].
      rewrite register_all_cons. apply IH. now apply Hregister. }
    exact (Hall _ h Hvalid).
  - intros n p Hget. apply (Hold n p). unfold get in *.
    now rewrite (proj1 (resume_Mapping awaited h)) in Hget.
  - intros n p Hget. now apply (Hold n p).
  - intros n p Hget. now apply (Hold n p).
Qed.

Lemma valid_refs_run (events : list Event) : valid_refs (run events createImageHome).
Proof.
  apply run_invariant; [|apply valid_refs_occur]. intros n p. discriminate.
Qed.

Lemma fulfilled_by_coercion_occur (h : ImageHomeImpl) (e : Event) :
  fulfilled_by_coercion h -> fulfilled_by_coercion (occur h e).
Proof.
  unfold fulfilled_by_coercion. intros Hh.
  assert (Hpending : forall imgs, Forall (fun cell => forall file,
                        state cell = Fulfilled file -> file = asInputFile (source cell))
                       (map pending imgs)).
  { intros imgs. apply Forall_forall. intros cell Hin.
    apply in_map_iff in Hin as [img [<- _]]. discriminate. }
  destruct e as [file name_|names| |awaited|q|q]; cbn [occur].
  - rewrite (promises_register file name_ h). apply Forall_app. split; [exact Hh|].
    exact (Hpending [file]).
  - now rewrite promises_remove.
  - cbn [resume snd]. rewrite promises_registerBuiltInImages.
    apply Forall_app. split; [exact Hh | apply Hpending].
  - now rewrite (proj2 (resume_Mapping awaited h)).
  - apply Forall_update_nth; [|exact Hh].
    intros cell Hcell. destruct (state cell) eqn:Hst; simpl.
    + now intros file [= <-].
    + rewrite Hst. exact Hcell.
  - apply Forall_update_nth; [|exact Hh].
    intros cell Hcell. destruct (state cell) eqn:Hst; simpl.
    + rewrite Hst. exact Hcell.
    + rewrite ?Hst. exact Hcell.
Qed.

Lemma fulfilled_by_coercion_run (events : list Event) :
  fulfilled_by_coercion (run events createImageHome).
Proof.
  apply run_invariant; [constructor | apply fulfilled_by_coercion_occur].
Qed.

Lemma run_app (es1 es2 : list Event) (h : ImageHomeImpl) :
  run (es1 ++ es2) h = run es2 (run es1 h).
Proof. apply fold_left_app. Qed.

(** What [isRegistered(name)] answers under the default is [true] or
    [undefined]; it is [true] exactly for an entry whose [resolved] is set. *)
Lemma isRegistered_default_true (n : string) (h : ImageHomeImpl) :
  isRegistered n true h = VBool true
  <-> exists p cell, get n h = Some p /\ nth_error (promises h) p = Some cell
                     /\ resolved cell = true.
Proof.
  unfold isRegistered, get, resolved_property. split.
  - destruct (lookup n (images h)) as [p|] eqn:Hget; [|discriminate].
    destruct (nth_error (promises h) p) as [cell|] eqn:Hcell; [|discriminate].
    destruct (resolved cell) eqn:Hres; [|discriminate]. intros _. now exists p, cell.
  - intros (p & cell & -> & -> & ->). reflexivity.
Qed.
End RegistryInvariants.

(** X13. Under the default [andReady], on any instance, [isRegistered(name)]
    is [true] or [undefined], and it is [true] exactly when the name has an
    entry whose continuation has run; the promise of such an entry is
    fulfilled with the coercion of the file that was registered. *)
Theorem isRegistered_default_iff_resolved {E : Externals} (events : list Event)
    (n : string) :
  let h := run events createImageHome in
  (isRegistered n true h = VBool true \/ isRegistered n true h = VUndefined)
  /\ (isRegistered n true h = VBool true
      <-> exists p cell,
            get n h = Some p /\ nth_error (promises h) p = Some cell
            /\ resolved cell = true
            /\ state cell = Fulfilled (asInputFile (source cell))).
Proof.
  intros h. split.
  - unfold isRegistered, resolved_property.
    destruct (lookup n (images h)) as [p|]; [|now right].
    destruct (nth_error (promises h) p) as [cell|]; [|now right].
    destruct (resolved cell); [now left | now right].
  - rewrite isRegistered_default_true. split.
    + intros (p & cell & Hget & Hcell & Hres). exists p, cell.
      repeat split; try assumption.
      assert (Hinv : resolved_after_fulfilment (run events createImageHome)).
      { apply resolved_after_fulfilment_run. constructor. }
      unfold resolved_after_fulfilment in Hinv. rewrite Forall_forall in Hinv.
      destruct (Hinv cell (nth_error_In _ _ Hcell) Hres) as [file Hfile].
      pose proof (fulfilled_by_coercion_run events) as Hco.
      unfold fulfilled_by_coercion in Hco. rewrite Forall_forall in Hco.
      rewrite Hfile. f_equal. exact (Hco cell (nth_error_In _ _ Hcell) file Hfile).
    + intros (p & cell & Hget & Hcell & Hres & _). now exists p, cell.
Qed.

(** X14. A registration, on whatever the instance holds under the name: it
    is not reported as registered when [register] returns, nor when the
    coercion has completed, and is reported once the continuation has run. *)
Theorem registration_life_cycle {E : Externals} (file : MagickFile)
    (name_ : option string) (h : ImageHomeImpl) :
  let n := registered_name (file, name_) in
  let p := fst (register file name_ h) in
  let h1 := snd (register file name_ h) in
  isRegistered n true h1 = VUndefined
  /\ isRegistered n true (settle p h1) = VUndefined
  /\ isRegistered n true (continuation p (settle p h1)) = VBool true.
Proof.
  intros n p h1.
  assert (Hget : lookup n (images h1) = Some p).
  { unfold h1. rewrite (images_register file name_ h). apply lookup_assign_eq. }
  assert (Hcell : nth_error (promises h1) p = Some (pending file)).
  { unfold h1. rewrite (promises_register file name_ h).
    unfold p. cbn [fst register].
    rewrite nth_error_app2, Nat.sub_diag; [reflexivity | apply Nat.le_refl]. }
  unfold isRegistered, resolved_property, settle, continuation, update_promise.
  cbn [images promises]. rewrite Hget, !nth_error_update_nth, Hcell, Nat.eqb_refl.
  repeat split.
Qed.

(** X15. A name that is reported as registered stays so through every
    event that neither registers nor removes it: the coercion of other
    files, their continuations, the registration and the removal of other
    names. *)
Theorem isRegistered_stable {E : Externals} (events : list Event) (n : string)
    (h : ImageHomeImpl) :
  forallb (fun e => negb (touches n e)) events = true ->
  isRegistered n true h = VBool true ->
  isRegistered n true (run events h) = VBool true.
Proof.
  revert h. induction events as [|e events IH]; intros h Hun Hreg; [exact Hreg|].
  cbn [forallb] in Hun. apply andb_true_iff in Hun as [He Hun].
  apply negb_true_iff in He.
  change (run (e :: events) h) with (run events (occur h e)).
  apply IH; [exact Hun|].
  apply isRegistered_default_true in Hreg as (p & cell & Hget & Hcell & Hres).
  destruct (occur_cell e h p cell Hcell) as (cell' & Hcell' & _ & Hres' & _).
  apply isRegistered_default_true. exists p, cell'.
  rewrite (get_untouched n e h He). auto.
Qed.

Lemma isRegistered_stable_witness :
  let h := run (E := Demo.externals)
               [Register (InputFile Demo.photo) (Some "x"); Settle 0; Continuation 0]
               createImageHome in
  let later := [Register (InputFile Demo.photo) (Some "y"); Settle 1;
                Remove ["y"]; AddBuiltInImages] in
  forallb (fun e => negb (touches (E := Demo.externals) "x" e)) later = true
  /\ isRegistered "x" true h = VBool true
  /\ isRegistered "x" true (run (E := Demo.externals) later h) = VBool true.
Proof.
  split; [reflexivity|]. split; [reflexivity|].
  exact (@isRegistered_stable Demo.externals
           [Register (InputFile Demo.photo) (Some "y"); Settle 1;
            Remove ["y"]; AddBuiltInImages] "x"
           (run (E := Demo.externals)
                [Register (InputFile Demo.photo) (Some "x"); Settle 0; Continuation 0]
                createImageHome)
           eq_refl eq_refl).
Defined.

(** X16. What [getAll] resolves to is settled by the own properties that
    [images] has when [getAll] is called (what was registered under
    [__proto__] is none of them): one file per property, in the order of
    the keys, each the coercion of the file registered under the name,
    whatever is registered or removed while [getAll] waits. *)
Theorem getAll_snapshot {E : Externals} (before since : list Event)
    (files : list MagickInputFile) :
  let called := run before createImageHome in
  let now := run since called in
  getAll called now = Some files ->
  map fst (own (images called)) = keys (images called)
  /\ ~ In proto_key (keys (images called))
  /\ Forall2 (fun entry file =>
                exists cell,
                  get (fst entry) called = Some (snd entry)
                  /\ nth_error (promises called) (snd entry) = Some cell
                  /\ file = asInputFile (source cell))
             (own (images called)) files.
Proof.
  intros called now. unfold getAll, values.
  assert (Hnd : NoDup (slots (images called))).
  { apply NoDup_slots_run. constructor. }
  assert (Hvalid : valid_refs called) by apply valid_refs_run.
  assert (Hco : fulfilled_by_coercion now).
  { unfold now, called. rewrite <- run_app. apply fulfilled_by_coercion_run. }
  unfold fulfilled_by_coercion in Hco. rewrite Forall_forall in Hco.
  assert (Hgen : forall o fs,
             incl o (images called) ->
             promise_all (map snd o) now = Some fs ->
             Forall2 (fun entry file =>
                        exists cell,
                          get (fst entry) called = Some (snd entry)
                          /\ nth_error (promises called) (snd entry) = Some cell
                          /\ file = asInputFile (source cell)) o fs).
  { induction o as [|[k p] o IH]; intros fs Hincl; cbn [map promise_all snd].
    - intros [= <-]. constructor.
    - destruct (awaited p now) as [file|] eqn:Hfile; [|discriminate].
      destruct (promise_all (map snd o) now) as [rest|] eqn:Hrest; [|discriminate].
      intros [= <-].
      assert (Hget : get k called = Some p).
      { apply In_lookup_Some; [exact Hnd|]. apply Hincl. now left. }
      destruct (Hvalid k p Hget) as [cell Hcell].
      destruct (run_cell since called p cell Hcell) as (cell' & Hcell' & Hsrc & _).
      constructor.
      + exists cell. cbn [fst snd]. split; [exact Hget|]. split; [exact Hcell|].
        unfold awaited in Hfile. fold now in Hcell'. rewrite Hcell' in Hfile.
        destruct (state cell') as [|file'] eqn:Hst; [discriminate|].
        injection Hfile as <-. rewrite <- Hsrc.
        exact (Hco cell' (nth_error_In _ _ Hcell') file' Hst).
      + apply IH; [|reflexivity]. intros x Hx. apply Hincl. now right. }
  intros Hall. split; [reflexivity|]. split.
  - intros Hin. apply In_keys in Hin as [_ Hord]. discriminate Hord.
  - apply Hgen; [|exact Hall]. intros x Hx. now apply In_own in Hx.
Qed.

Lemma getAll_snapshot_witness :
  let before := [Register (InputFile Demo.photo) (Some "x");
                 Register (InputFile Demo.photo) (Some "__proto__");
                 Register (OutputFile (mkOutputFile "y" [])) None] in
  let since := [Settle 0; Remove ["x"]; Settle 2;
                Register (InputFile Demo.photo) (Some "z")] in
  let called := run (E := Demo.externals) before createImageHome in
  let now := run (E := Demo.externals) since called in
  getAll called now = Some [Demo.photo; mkInputFile "y" []]
  /\ get "__proto__" called = Some 1
  /\ Forall2 (fun entry file =>
                exists cell,
                  get (fst entry) called = Some (snd entry)
                  /\ nth_error (promises called) (snd entry) = Some cell
                  /\ file = asInputFile (Externals := Demo.externals) (source cell))
             (own (images called)) [Demo.photo; mkInputFile "y" []].
Proof.
  split; [reflexivity|]. split; [reflexivity|].
  apply (@getAll_snapshot Demo.externals
           [Register (InputFile Demo.photo) (Some "x");
            Register (InputFile Demo.photo) (Some "__proto__");
            Register (OutputFile (mkOutputFile "y" [])) None]
           [Settle 0; Remove ["x"]; Settle 2;
            Register (InputFile Demo.photo) (Some "z")]
           [Demo.photo; mkInputFile "y" []] eq_refl).
Defined.

(** X17. A call of [addBuiltInImages] on an instance whose flag is not set
    leaves, when it has registered the built-in images and starts to await
    their promises, every built-in name registered with a pending promise
    for a built-in image of that name, every other name as it was, and the
    flag unset.  Whatever happens meanwhile, the call returns only when
    each of these promises is fulfilled with the coercion of its image and
    has its [resolved] set, and it sets the flag then; until then it
    changes nothing. *)
Theorem addBuiltInImages_registers_names {E : Externals} (events between : list Event) :
  let h := run events createImageHome in
  let call1 := fst (resume (addBuiltInImages h) h) in
  let h1 := snd (resume (addBuiltInImages h) h) in
  let h2 := run between h1 in
  builtInImagesAdded h = false ->
  (forall img, In img getBuiltInImages ->
     exists p img',
       get (name img) h1 = Some p
       /\ nth_error (promises h1) p = Some (pending img')
       /\ In img' getBuiltInImages /\ name img' = name img)
  /\ (forall n, (forall img, In img getBuiltInImages -> name img <> n) ->
                get n h1 = get n h)
  /\ builtInImagesAdded h1 = false
  /\ (fst (resume call1 h2) = Returned ->
      builtInImagesAdded (snd (resume call1 h2)) = true
      /\ forall j img, nth_error getBuiltInImages j = Some img ->
           nth_error (promises h2) (List.length (promises h) + j)
           = Some {| source := img;
                     state := Fulfilled (asInputFile img);
                     resolved := true |})
  /\ (fst (resume call1 h2) <> Returned -> resume call1 h2 = (call1, h2)).
Proof.
  intros h call1 h1 h2 Hflag.
  set (regs := map (fun img => (img, @None string)) getBuiltInImages).
  set (awaited := seq (List.length (promises h)) (List.length getBuiltInImages)).
  assert (Hfirst : resume (addBuiltInImages h) h = (Mapping awaited, register_all regs h)).
  { unfold addBuiltInImages. rewrite Hflag. cbn [negb resume].
    now rewrite registerBuiltInImages_register_all. }
  assert (Hcall : call1 = Mapping awaited) by (unfold call1; now rewrite Hfirst).
  assert (Hh1 : h1 = register_all regs h) by (unfold h1; now rewrite Hfirst).
  assert (Hocc : h1 = occur h AddBuiltInImages).
  { rewrite Hh1. cbn [occur resume snd].
    now rewrite registerBuiltInImages_register_all. }
  assert (Hget : forall n, get n h1
                           = match last_registration (List.length (promises h)) n regs with
                             | Some p => Some p
                             | None => get n h
                             end).
  { intros n. rewrite Hh1. apply get_register_all. }
  assert (Hproms : promises h1 = promises h ++ map pending getBuiltInImages).
  { rewrite Hh1, promises_register_all. unfold regs. now rewrite map_map. }
  split; [|split; [|split; [|split]]].
  - intros img Himg.
    assert (Hin : In (img, @None string) regs).
    { apply in_map_iff. now exists img. }
    destruct (last_registration_hit (name img) regs (List.length (promises h))
                (img, None) Hin eq_refl) as [p Hp].
    destruct (last_registration_Some _ _ _ _ Hp) as (j & r & -> & Hj & Hr).
    unfold regs in Hj. rewrite nth_error_map in Hj.
    destruct (nth_error getBuiltInImages j) as [img'|] eqn:Himg'; [|discriminate].
    injection Hj as <-. exists (List.length (promises h) + j), img'.
    assert (Hp' : last_registration (List.length (promises h)) (name img) regs
                  = Some (List.length (promises h) + j)) by exact Hp.
    rewrite Hget, Hp', Hproms.
    split; [reflexivity|]. split; [|split].
    + rewrite nth_error_app2 by lia.
      replace (List.length (promises h) + j - List.length (promises h)) with j by lia.
      now rewrite nth_error_map, Himg'.
    + exact (nth_error_In _ _ Himg').
    + exact Hr.
  - intros n Hn. rewrite Hget, last_registration_None; [reflexivity|].
    intros r Hr. apply in_map_iff in Hr as [img [<- Himg]]. now apply Hn.
  - rewrite Hh1, builtInImagesAdded_register_all. exact Hflag.
  - rewrite Hcall. cbn [resume].
    destruct (forallb (fun p => is_resolved p h2) awaited) eqn:Hres;
      [|discriminate].
    intros _. split; [reflexivity|]. intros j img Hj.
    assert (Hcell : nth_error (promises h1) (List.length (promises h) + j)
                    = Some (pending img)).
    { rewrite Hproms, nth_error_app2 by lia.
      replace (List.length (promises h) + j - List.length (promises h)) with j by lia.
      now rewrite nth_error_map, Hj. }
    destruct (run_cell between h1 _ _ Hcell) as (cell & Hcell2 & Hsrc & _).
    fold h2 in Hcell2.
    assert (Hr : resolved cell = true).
    { rewrite forallb_forall in Hres.
      assert (Hin : In (List.length (promises h) + j) awaited).
      { apply in_seq. split; [lia|].
        assert (j < List.length getBuiltInImages)
          by (apply nth_error_Some; congruence). lia. }
      specialize (Hres _ Hin). unfold is_resolved in Hres.
      now rewrite Hcell2 in Hres. }
    assert (Hrun : h2 = run (events ++ AddBuiltInImages :: between) createImageHome).
    { unfold h2. rewrite Hocc, run_app. reflexivity. }
    assert (Hraf : resolved_after_fulfilment h2).
    { rewrite Hrun. apply resolved_after_fulfilment_run. constructor. }
    assert (Hfbc : fulfilled_by_coercion h2).
    { rewrite Hrun. apply fulfilled_by_coercion_run. }
    unfold resolved_after_fulfilment in Hraf. unfold fulfilled_by_coercion in Hfbc.
    rewrite Forall_forall in Hraf, Hfbc.
    pose proof (nth_error_In _ _ Hcell2) as Hin.
    destruct (Hraf cell Hin Hr) as [file Hfile].
    pose proof (Hfbc cell Hin file Hfile) as Hco.
    rewrite Hcell2. destruct cell as [src st res]. simpl in *. subst. reflexivity.
  - rewrite Hcall. cbn [resume].
    destruct (forallb (fun p => is_resolved p h2) awaited);
      [intros Hne; now contradiction Hne | reflexivity].
Qed.

Lemma addBuiltInImages_registers_names_witness :
  let h := run (E := Demo.externals) [] createImageHome in
  let h1 := snd (resume (E := Demo.externals) (addBuiltInImages h) h) in
  let h2 := run (E := Demo.externals)
                [Settle 0; Settle 1; Continuation 1; Continuation 0] h1 in
  builtInImagesAdded h = false
  /\ get "rose:" h1 = Some 0
  /\ builtInImagesAdded h1 = false
  /\ fst (resume (E := Demo.externals)
                 (fst (resume (E := Demo.externals) (addBuiltInImages h) h)) h2)
     = Returned
  /\ builtInImagesAdded
       (snd (resume (E := Demo.externals)
                    (fst (resume (E := Demo.externals) (addBuiltInImages h) h)) h2))
     = true.
Proof.
  split; [reflexivity|]. split; [reflexivity|]. split; [reflexivity|].
  split; [reflexivity|].
  apply (@addBuiltInImages_registers_names Demo.externals []
           [Settle 0; Settle 1; Continuation 1; Continuation 0] eq_refl).
  reflexivity.
Defined.


